(** * goes: event store, aggregate repository, projection jobs and schedules

    A shallow embedding of the core of the event-sourcing framework:
    the MongoDB event store ([mongostore]), the aggregate repository
    ([repository]), the projection job with its query cache
    ([projection]) and the schedules with the subscription pipeline
    ([project]).

    Conventions.  Go's [int] and [int64] are [Z] with the wrap-around of
    the 64-bit representation written out ([int_wrap]).  A [uuid.UUID] is
    the 128-bit number it encodes, [uuid.Nil] being [0].  A [time.Time] is
    the number of nanoseconds since the zero instant (January 1, year 1,
    00:00:00 UTC), so that [IsZero] is the test against [0].  Errors are
    an inductive type with an explicit wrapper for [fmt.Errorf("...: %w")].
    Goroutines that loop over a [select] are folded over the list of the
    outcomes of that [select]. *)

From Stdlib Require Import ZArith NArith Lia Bool.
From stdpp Require Import base option list gmap strings sorting.

Local Open Scope Z_scope.

(** ** Machine integers *)

Definition int_wrap (z : Z) : Z := (z + 2 ^ 63) mod 2 ^ 64 - 2 ^ 63.

Definition int_add (x y : Z) : Z := int_wrap (x + y).

Definition int_range (z : Z) : Prop := - 2 ^ 63 <= z < 2 ^ 63.

(** ** Identifiers and wall-clock times *)

Module uuid.

Definition UUID : Type := N.

Definition Nil : UUID := 0%N.

End uuid.

Module stdtime.

Definition Time : Type := Z.

Definition Duration : Type := Z.

Definition Nanosecond : Duration := 1.

Definition zero : Time := 0.

Definition IsZero (t : Time) : bool := bool_decide (t = zero).

Definition Add (t : Time) (d : Duration) : Time := t + d.

(** Nanoseconds between the zero instant and January 1, 1970 UTC. *)
Definition unixEpoch : Z := 62135596800 * 1000000000.

Definition UnixNano (t : Time) : Z := int_wrap (t - unixEpoch).

End stdtime.

(** ** Events *)

Module event.

Record Event : Type := New {
  ID : uuid.UUID;
  Name : string;
  Time : stdtime.Time;
  Data : string;
  AggregateName : string;
  AggregateID : uuid.UUID;
  AggregateVersion : Z
}.

#[global] Instance Event_eq_dec : EqDecision Event.
Proof. solve_decision. Defined.

(** An event carries an aggregate when both its aggregate name and its
    aggregate id are set; this is the test the store and the schedules
    make. *)
Definition hasAggregate (evt : Event) : bool :=
  negb (bool_decide (AggregateName evt = EmptyString) ||
        bool_decide (AggregateID evt = uuid.Nil)).

(** Sort keys and directions of a query. *)
Inductive Sorting : Type :=
| SortTime
| SortAggregateName
| SortAggregateID
| SortAggregateVersion.

Inductive SortDirection : Type :=
| SortAsc
| SortDesc.

Record SortOptions : Type := {
  Sort : Sorting;
  Dir : SortDirection
}.

End event.

(** ** Errors *)

Inductive error : Type :=
| VersionError (AggregateName : string) (AggregateID : uuid.UUID)
    (CurrentVersion : Z) (Event : event.Event)
| ErrVersionNotFound
| ErrDuplicateKey (index : string)
| Errorf (context : string) (err : error).

#[global] Instance error_eq_dec : EqDecision error.
Proof. solve_decision. Defined.

(** [errors.As(err, &versionError)]: the first [*VersionError] in the
    chain of wrapped errors. *)
Fixpoint AsVersionError (err : error) : option error :=
  match err with
  | VersionError _ _ _ _ => Some err
  | Errorf _ err' => AsVersionError err'
  | _ => None
  end.

Definition isVersionError (err : option error) : bool :=
  match err with
  | Some e => bool_decide (is_Some (AsVersionError e))
  | None => false
  end.

(** ** Queries

    [event.Query] is an interface of read-only accessors; the record has
    one field per accessor the store reads in [makeFilter] and
    [applySortings]. *)

Module time.

Record Constraints : Type := {
  Exact : list stdtime.Time;
  Min : stdtime.Time;
  Max : stdtime.Time;
  Ranges : list (stdtime.Time * stdtime.Time)
}.

Definition none : Constraints :=
  {| Exact := []; Min := stdtime.zero; Max := stdtime.zero; Ranges := [] |}.

(** Modelled from the spec: the options of the time constraints and
    their composition [time.Filter] (package event/query/time, whose
    code is not among the sources): "compose from options (varargs)". *)
Definition Option : Type := Constraints -> Constraints.

(** Modelled from the spec: [time.Filter], the options applied in order
    to the constraints that constrain nothing. *)
Definition Filter (opts : list Option) : Constraints :=
  fold_left (fun c opt => opt c) opts none.

End time.

Module version.

Record Constraints : Type := {
  Exact : list Z;
  Min : list Z;
  Max : list Z;
  Ranges : list (Z * Z)
}.

Definition none : Constraints :=
  {| Exact := []; Min := []; Max := []; Ranges := [] |}.

(** Modelled from the spec: the options of the version constraints
    (package event/query/version, whose code is not among the sources):
    "compose from options (varargs)". *)
Definition Option : Type := Constraints -> Constraints.

(** Modelled from the spec: the option [version.Min(vs...)], named
    [WithMin] beside the accessor [Min].  It adds its bounds to the list
    the accessor returns ("aggregate-version constraints (exact list,
    per-aggregate min set, per-aggregate max set, ranges)"). *)
Definition WithMin (vs : list Z) : Option :=
  fun c =>
    {| Exact := Exact c; Min := Min c ++ vs; Max := Max c;
       Ranges := Ranges c |}.

(** Modelled from the spec: the option [version.Max(vs...)], named
    [WithMax] beside the accessor [Max]. *)
Definition WithMax (vs : list Z) : Option :=
  fun c =>
    {| Exact := Exact c; Min := Min c; Max := Max c ++ vs;
       Ranges := Ranges c |}.

(** Modelled from the spec: the option [version.Exact(vs...)], named
    [WithExact] beside the accessor [Exact]. *)
Definition WithExact (vs : list Z) : Option :=
  fun c =>
    {| Exact := Exact c ++ vs; Min := Min c; Max := Max c;
       Ranges := Ranges c |}.

(** Modelled from the spec: [version.Filter], the options applied in
    order to the constraints that constrain nothing. *)
Definition Filter (opts : list Option) : Constraints :=
  fold_left (fun c opt => opt c) opts none.

End version.

Module query.

Record Query : Type := {
  Names : list string;
  IDs : list uuid.UUID;
  Times : time.Constraints;
  AggregateNames : list string;
  AggregateIDs : list uuid.UUID;
  AggregateVersions : version.Constraints;
  Sortings : list event.SortOptions
}.

Definition empty : Query :=
  {| Names := []; IDs := []; Times := time.none;
     AggregateNames := []; AggregateIDs := [];
     AggregateVersions := version.none; Sortings := [] |}.

(** Modelled from the spec: the query options (package event/query,
    whose code is not among the sources). *)
Definition Option : Type := Query -> Query.

(** Modelled from the spec: [query.New] ("Compose from options
    (varargs).  Unknown option fields default to no constraint"). *)
Definition New (opts : list Option) : Query :=
  fold_left (fun q opt => opt q) opts empty.

(** Modelled from the spec: the option [query.AggregateName(names...)];
    it adds the names to the aggregate names of the query. *)
Definition AggregateName (names : list string) : Option :=
  fun q =>
    {| Names := Names q; IDs := IDs q; Times := Times q;
       AggregateNames := AggregateNames q ++ names;
       AggregateIDs := AggregateIDs q;
       AggregateVersions := AggregateVersions q; Sortings := Sortings q |}.

(** Modelled from the spec: the option [query.AggregateID(ids...)]; it
    adds the ids to the aggregate ids of the query. *)
Definition AggregateID (ids : list uuid.UUID) : Option :=
  fun q =>
    {| Names := Names q; IDs := IDs q; Times := Times q;
       AggregateNames := AggregateNames q;
       AggregateIDs := AggregateIDs q ++ ids;
       AggregateVersions := AggregateVersions q; Sortings := Sortings q |}.

(** Modelled from the spec: the option [query.AggregateVersion(opts...)];
    it sets the version constraints of the query. *)
Definition AggregateVersion (opts : list version.Option) : Option :=
  fun q =>
    {| Names := Names q; IDs := IDs q; Times := Times q;
       AggregateNames := AggregateNames q;
       AggregateIDs := AggregateIDs q;
       AggregateVersions := version.Filter opts; Sortings := Sortings q |}.

(** Modelled from the spec: the option [query.Time(opts...)]; it sets the
    time constraints of the query. *)
Definition Time (opts : list time.Option) : Option :=
  fun q =>
    {| Names := Names q; IDs := IDs q; Times := time.Filter opts;
       AggregateNames := AggregateNames q;
       AggregateIDs := AggregateIDs q;
       AggregateVersions := AggregateVersions q; Sortings := Sortings q |}.

(** Modelled from the spec: the option [query.SortBy(sort, dir)]; it sets
    the sortings of the query to this one sorting. *)
Definition SortBy (sort : event.Sorting) (dir : event.SortDirection)
  : Option :=
  fun q =>
    {| Names := Names q; IDs := IDs q; Times := Times q;
       AggregateNames := AggregateNames q;
       AggregateIDs := AggregateIDs q;
       AggregateVersions := AggregateVersions q;
       Sortings := [ {| event.Sort := sort; event.Dir := dir |} ] |}.

End query.

(** ** The event store interface

    [event.Store] as the repository and the projection job use it:
    [Insert] and [Query].  A stream is the finite sequence of events it
    delivers together with the error it ends in, if any. *)

Record Stream : Type := {
  stream_events : list event.Event;
  stream_err : option error
}.

Class Store (S : Type) : Type := {
  Insert : S -> list event.Event -> S * option error;
  Query : S -> query.Query -> error + Stream
}.

(** Modelled from the spec: [stream.All] (package event/stream, whose
    code is not among the sources), which drains a stream into a slice
    and returns the error the stream ended in. *)
Definition All (str : Stream) : list event.Event * option error :=
  (stream_events str, stream_err str).

(** Modelled from the spec: [event.Walk] (whose code is not among the
    sources), under a context that is not canceled ("walks the stream,
    applies the pre-filter, and emits one ticket per event").  It calls
    the function on the events of the stream, in their order, and
    returns the error the stream ends in; [fn] gives what a call sends. *)
Definition Walk {A : Type} (fn : event.Event -> list A) (str : Stream)
  : list A * option error :=
  (flat_map fn (stream_events str), stream_err str).

(** ** The MongoDB event store *)

Module mongostore.

(** A document of the states collection. *)
Record state : Type := {
  state_AggregateName : string;
  state_AggregageID : uuid.UUID;
  state_Version : Z
}.

(** A document of the entries collection. *)
Record entry : Type := {
  entry_ID : uuid.UUID;
  entry_Name : string;
  entry_Time : stdtime.Time;
  entry_TimeNano : Z;
  entry_AggregateName : string;
  entry_AggregateID : uuid.UUID;
  entry_AggregateVersion : Z;
  entry_Data : string
}.

#[global] Instance state_eq_dec : EqDecision state.
Proof. solve_decision. Defined.

#[global] Instance entry_eq_dec : EqDecision entry.
Proof. solve_decision. Defined.

(** The database behind a [Store]: the two collections, in their natural
    order. *)
Record Store : Type := {
  entries : list entry;
  states : list state
}.

Definition zeroState : state :=
  {| state_AggregateName := EmptyString;
     state_AggregageID := uuid.Nil;
     state_Version := 0 |}.

(** *** The collections as MongoDB serves them *)

(** The filter [{aggregateName: name, aggregateId: id}] on the states
    collection. *)
Definition stateFilter (name : string) (id : uuid.UUID) (st : state) : bool :=
  bool_decide (state_AggregateName st = name) &&
  bool_decide (state_AggregageID st = id).

(** [states.FindOne]: the first document that matches, [None] standing
    for [mongo.ErrNoDocuments]. *)
Definition FindOne (col : list state) (name : string) (id : uuid.UUID)
  : option state :=
  List.find (stateFilter name id) col.

(** [states.ReplaceOne] with [SetUpsert(true)]: the first document that
    matches is replaced; when none does, the replacement is inserted. *)
Fixpoint ReplaceOne (col : list state) (name : string) (id : uuid.UUID)
    (st : state) : list state :=
  match col with
  | [] => [st]
  | doc :: col' =>
      if stateFilter name id doc then st :: col'
      else doc :: ReplaceOne col' name id st
  end.

(** The indexes [ensureIndexes] creates on the entries collection:
    [goes_id], unique on [id], and [goes_aggregate], unique on
    [(aggregateName, aggregateId, aggregateVersion)] over the documents
    with [aggregateName > ""] and [aggregateId > uuid.Nil]. *)
Definition inAggregateIndex (e : entry) : bool :=
  negb (bool_decide (entry_AggregateName e = EmptyString)) &&
  negb (bool_decide (entry_AggregateID e = uuid.Nil)).

Definition sameID (e x : entry) : bool :=
  bool_decide (entry_ID x = entry_ID e).

Definition sameAggregateVersion (e x : entry) : bool :=
  inAggregateIndex x &&
  bool_decide (entry_AggregateName x = entry_AggregateName e) &&
  bool_decide (entry_AggregateID x = entry_AggregateID e) &&
  bool_decide (entry_AggregateVersion x = entry_AggregateVersion e).

(** [entries.InsertOne]: the write is refused with a duplicate-key error
    when it would break one of the unique indexes. *)
Definition InsertOne (col : list entry) (e : entry) : error + list entry :=
  if existsb (sameID e) col then inl (ErrDuplicateKey "goes_id")
  else if inAggregateIndex e && existsb (sameAggregateVersion e) col
       then inl (ErrDuplicateKey "goes_aggregate")
       else inr (col ++ [e]).

(** *** Insert *)

Definition newEntry (evt : event.Event) : entry :=
  {| entry_ID := event.ID evt;
     entry_Name := event.Name evt;
     entry_Time := event.Time evt;
     entry_TimeNano := stdtime.UnixNano (event.Time evt);
     entry_AggregateName := event.AggregateName evt;
     entry_AggregateID := event.AggregateID evt;
     entry_AggregateVersion := event.AggregateVersion evt;
     entry_Data := event.Data evt |}.

Definition validateVersion (s : Store) (events : list event.Event)
  : state * option error :=
  match events with
  | [] => (zeroState, None)
  | evt0 :: _ =>
      let aggregateName := event.AggregateName evt0 in
      let aggregateID := event.AggregateID evt0 in
      if bool_decide (aggregateName = EmptyString) ||
         bool_decide (aggregateID = uuid.Nil)
      then (zeroState, None)
      else
        let st :=
          match FindOne (states s) aggregateName aggregateID with
          | Some st => st
          | None =>
              {| state_AggregateName := aggregateName;
                 state_AggregageID := aggregateID;
                 state_Version := 0 |}
          end in
        if state_Version st >=? event.AggregateVersion evt0
        then (st, Some (VersionError aggregateName aggregateID
                          (state_Version st) evt0))
        else (st, None)
  end.

Definition insert (s : Store) (evt : event.Event) : error + Store :=
  match InsertOne (entries s) (newEntry evt) with
  | inl err => inl (Errorf "mongo" err)
  | inr col => inr {| entries := col; states := states s |}
  end.

(** The loop of [Insert] over the events: the store after the writes, or
    the event whose write failed together with the error. *)
Fixpoint insertAll (s : Store) (events : list event.Event)
  : (event.Event * error) + Store :=
  match events with
  | [] => inr s
  | evt :: events' =>
      match insert s evt with
      | inl err => inl (evt, err)
      | inr s' => insertAll s' events'
      end
  end.

Definition updateState (s : Store) (st : state) (events : list event.Event)
  : Store :=
  match last events with
  | None => s
  | Some evtN =>
      if bool_decide (state_AggregateName st = EmptyString) ||
         bool_decide (state_AggregageID st = uuid.Nil)
      then s
      else
        let st' :=
          {| state_AggregateName := state_AggregateName st;
             state_AggregageID := state_AggregageID st;
             state_Version := event.AggregateVersion evtN |} in
        {| entries := entries s;
           states := ReplaceOne (states s) (state_AggregateName st)
                       (state_AggregageID st) st' |}
  end.

(** [Store.Insert].  The function runs inside a session transaction: the
    store it returns is the committed one, and the one it was given when
    the transaction does not commit.  Failures of the driver itself
    (connecting, starting, aborting or committing the transaction) are
    outside the model. *)
Definition Insert (s : Store) (events : list event.Event)
  : Store * option error :=
  match validateVersion s events with
  | (_, Some err) => (s, Some (Errorf "validate version" err))
  | (st, None) =>
      match insertAll s events with
      | inl (evt, err) =>
          (s, Some (Errorf ("insert " +:+ event.Name evt) err))
      | inr s' => (updateState s' st events, None)
      end
  end.

(** *** Query

    The filter document [makeFilter] builds, as the ordered list of its
    elements.  An element constrains one field by a list of operators, or
    is a [$or] over single-field documents; a document of the collection
    matches the filter when it matches every element. *)

Inductive value : Type :=
| VString (s : string)
| VUUID (u : uuid.UUID)
| VInt (z : Z)
| VTime (t : stdtime.Time).

Inductive operator : Type :=
| op_in (vs : list value)
| op_gte (v : value)
| op_lte (v : value).

Inductive element : Type :=
| E (Key : string) (Value : list operator)
| E_or (alternatives : list (string * list operator)).

Definition D : Type := list element.

Definition withNameFilter (filter : D) (names : list string) : D :=
  match names with
  | [] => filter
  | _ => filter ++ [E "name" [op_in (VString <$> names)]]
  end.

Definition withIDFilter (filter : D) (ids : list uuid.UUID) : D :=
  match ids with
  | [] => filter
  | _ => filter ++ [E "id" [op_in (VUUID <$> ids)]]
  end.

Definition nanoTimes (ts : list stdtime.Time) : list Z :=
  stdtime.UnixNano <$> ts.

Definition withTimeFilter (filter : D) (times : time.Constraints) : D :=
  let filter :=
    match time.Exact times with
    | [] => filter
    | exact => filter ++ [E "timeNano" [op_in (VInt <$> nanoTimes exact)]]
    end in
  let filter :=
    if stdtime.IsZero (time.Min times) then filter
    else filter ++ [E "timeNano" [op_gte (VInt (stdtime.UnixNano (time.Min times)))]] in
  let filter :=
    if stdtime.IsZero (time.Max times) then filter
    else filter ++ [E "timeNano" [op_lte (VInt (stdtime.UnixNano (time.Max times)))]] in
  match time.Ranges times with
  | [] => filter
  | ranges =>
      filter ++
      [E_or ((fun r : stdtime.Time * stdtime.Time =>
                ("timeNano", [op_gte (VTime r.1); op_lte (VTime r.2)])) <$> ranges)]
  end.

Definition withAggregateNameFilter (filter : D) (names : list string) : D :=
  match names with
  | [] => filter
  | _ => filter ++ [E "aggregateName" [op_in (VString <$> names)]]
  end.

Definition withAggregateIDFilter (filter : D) (ids : list uuid.UUID) : D :=
  match ids with
  | [] => filter
  | _ => filter ++ [E "aggregateId" [op_in (VUUID <$> ids)]]
  end.

Definition withAggregateVersionFilter (filter : D)
    (versions : version.Constraints) : D :=
  let filter :=
    match version.Exact versions with
    | [] => filter
    | exact => filter ++ [E "aggregateVersion" [op_in (VInt <$> exact)]]
    end in
  let filter :=
    match version.Min versions with
    | [] => filter
    | min =>
        filter ++
        [E_or ((fun v => ("aggregateVersion", [op_gte (VInt v)])) <$> min)]
    end in
  let filter :=
    match version.Max versions with
    | [] => filter
    | max =>
        filter ++
        [E_or ((fun v => ("aggregateVersion", [op_lte (VInt v)])) <$> max)]
    end in
  match version.Ranges versions with
  | [] => filter
  | ranges =>
      filter ++
      [E_or ((fun r : Z * Z =>
                ("aggregateVersion", [op_gte (VInt r.1); op_lte (VInt r.2)]))
             <$> ranges)]
  end.

Definition makeFilter (q : query.Query) : D :=
  let filter := [] in
  let filter := withNameFilter filter (query.Names q) in
  let filter := withIDFilter filter (query.IDs q) in
  let filter := withTimeFilter filter (query.Times q) in
  let filter := withAggregateNameFilter filter (query.AggregateNames q) in
  let filter := withAggregateIDFilter filter (query.AggregateIDs q) in
  withAggregateVersionFilter filter (query.AggregateVersions q).

(** [applySortings]: the sort document, a key and [1] or [-1] per
    sorting. *)
Definition sortKey (sort : event.Sorting) : string :=
  match sort with
  | event.SortTime => "timeNano"
  | event.SortAggregateName => "aggregateName"
  | event.SortAggregateID => "aggregateId"
  | event.SortAggregateVersion => "aggregateVersion"
  end.

Definition applySortings (sortings : list event.SortOptions)
  : list (string * Z) :=
  (fun opts : event.SortOptions =>
     let v := match event.Dir opts with
              | event.SortDesc => -1
              | event.SortAsc => 1
              end in
     (sortKey (event.Sort opts), v)) <$> sortings.

(** The value a document holds under a key of the filter or of the sort
    document. *)
Definition field (e : entry) (key : string) : option value :=
  if bool_decide (key = "id") then Some (VUUID (entry_ID e))
  else if bool_decide (key = "name") then Some (VString (entry_Name e))
  else if bool_decide (key = "time") then Some (VTime (entry_Time e))
  else if bool_decide (key = "timeNano") then Some (VInt (entry_TimeNano e))
  else if bool_decide (key = "aggregateName")
       then Some (VString (entry_AggregateName e))
  else if bool_decide (key = "aggregateId")
       then Some (VUUID (entry_AggregateID e))
  else if bool_decide (key = "aggregateVersion")
       then Some (VInt (entry_AggregateVersion e))
  else None.

(** Comparison of BSON values: values of one type compare by their
    order, values of different types match no comparison operator. *)
Definition compareValues (a b : value) : option comparison :=
  match a, b with
  | VString x, VString y => Some (String.compare x y)
  | VUUID x, VUUID y => Some (N.compare x y)
  | VInt x, VInt y => Some (Z.compare x y)
  | VTime x, VTime y => Some (Z.compare x y)
  | _, _ => None
  end.

Definition holds (v : value) (op : operator) : bool :=
  match op with
  | op_in vs =>
      existsb (fun w => bool_decide (compareValues v w = Some Eq)) vs
  | op_gte w =>
      match compareValues v w with
      | Some Eq | Some Gt => true
      | _ => false
      end
  | op_lte w =>
      match compareValues v w with
      | Some Eq | Some Lt => true
      | _ => false
      end
  end.

Definition matchesField (e : entry) (kv : string * list operator) : bool :=
  match field e kv.1 with
  | Some v => forallb (holds v) kv.2
  | None => false
  end.

Definition matchesElement (e : entry) (el : element) : bool :=
  match el with
  | E key ops => matchesField e (key, ops)
  | E_or alternatives => existsb (matchesField e) alternatives
  end.

Definition matches (filter : D) (e : entry) : bool :=
  forallb (matchesElement e) filter.

(** The order a sort document puts on the documents: lexicographic over
    its keys, each ascending ([1]) or descending. *)
Definition compareField (key : string) (a b : entry) : comparison :=
  match field a key, field b key with
  | Some x, Some y => default Eq (compareValues x y)
  | _, _ => Eq
  end.

Fixpoint compareEntries (sorts : list (string * Z)) (a b : entry)
  : comparison :=
  match sorts with
  | [] => Eq
  | (key, v) :: sorts' =>
      match compareField key a b with
      | Eq => compareEntries sorts' a b
      | c => if v =? 1 then c else CompOpp c
      end
  end.

Definition sortedBefore (sorts : list (string * Z)) (a b : entry) : Prop :=
  compareEntries sorts a b <> Gt.

#[global] Instance sortedBefore_dec sorts a b : Decision (sortedBefore sorts a b).
Proof. unfold sortedBefore. apply _. Defined.

(** Sorting by a sort document: a stable insertion sort, so that
    documents the sort document does not tell apart keep their natural
    order. *)
Fixpoint insertSorted (sorts : list (string * Z)) (e : entry)
    (col : list entry) : list entry :=
  match col with
  | [] => [e]
  | x :: col' =>
      if decide (sortedBefore sorts e x) then e :: col
      else x :: insertSorted sorts e col'
  end.

Definition sortEntries (sorts : list (string * Z)) (col : list entry)
  : list entry :=
  foldr (insertSorted sorts) [] col.

(** [entries.Find(ctx, filter, opts)]: the documents that match, in the
    order of the sort document. *)
Definition Find (col : list entry) (filter : D) (sorts : list (string * Z))
  : list entry :=
  sortEntries sorts (List.filter (matches filter) col).

(** [entry.event]: the event a document decodes to. *)
Definition entryEvent (e : entry) : event.Event :=
  {| event.ID := entry_ID e;
     event.Name := entry_Name e;
     event.Time := stdtime.unixEpoch + entry_TimeNano e;
     event.Data := entry_Data e;
     event.AggregateName := entry_AggregateName e;
     event.AggregateID := entry_AggregateID e;
     event.AggregateVersion := entry_AggregateVersion e |}.

(** [Store.Query]: the cursor over the documents found, read to its
    end. *)
Definition Query (s : Store) (q : query.Query) : error + Stream :=
  inr {| stream_events :=
           entryEvent <$> Find (entries s) (makeFilter q)
                            (applySortings (query.Sortings q));
         stream_err := None |}.

(** *** Find and Delete *)

(** [entries.FindOne(ctx, bson.M{"id": id})]: the first document with
    the id, [None] standing for [mongo.ErrNoDocuments]. *)
Definition FindOneByID (col : list entry) (id : uuid.UUID) : option entry :=
  List.find (fun e => bool_decide (entry_ID e = id)) col.

(** [entries.DeleteOne(ctx, bson.M{"id": id})]: the first document with
    the id is removed; without one the collection is left as it is and
    the driver reports no error. *)
Fixpoint DeleteOne (col : list entry) (id : uuid.UUID) : list entry :=
  match col with
  | [] => []
  | e :: col' =>
      if bool_decide (entry_ID e = id) then col'
      else e :: DeleteOne col' id
  end.

(** [Store.Find]; [None] is the error ["decode document: ..."] around
    [mongo.ErrNoDocuments]. *)
Definition FindEvent (s : Store) (id : uuid.UUID) : option event.Event :=
  entryEvent <$> FindOneByID (entries s) id.

(** [Store.Delete]. *)
Definition Delete (s : Store) (evt : event.Event) : Store * option error :=
  ({| entries := DeleteOne (entries s) (event.ID evt); states := states s |},
   None).

End mongostore.

#[global] Instance mongostore_Store : Store mongostore.Store :=
  {| Insert := mongostore.Insert; Query := mongostore.Query |}.

(** The [Delete] method of [event.Store], which the repository uses to
    delete an aggregate. *)
Class Deleter (S : Type) : Type := {
  Delete : S -> event.Event -> S * option error
}.

#[global] Instance mongostore_Deleter : Deleter mongostore.Store :=
  {| Delete := mongostore.Delete |}.

(** ** Aggregates *)

Module aggregate.

(** Modelled from the spec: the in-memory aggregate (package aggregate,
    whose code is not among the sources): "Aggregate (in-memory): {name,
    id, version, uncommittedChanges: ordered sequence of Events}".  The
    state an aggregate folds from its events is kept as the sequence of
    the events given to its [ApplyEvent], in the order of the calls. *)
Record Aggregate : Type := {
  AggregateName : string;
  AggregateID : uuid.UUID;
  AggregateVersion : Z;
  AggregateChanges : list event.Event;
  Applied : list event.Event
}.

(** Modelled from the spec: [aggregate.New], a fresh aggregate at
    version [0] ("0 means none"). *)
Definition New (name : string) (id : uuid.UUID) : Aggregate :=
  {| AggregateName := name; AggregateID := id; AggregateVersion := 0;
     AggregateChanges := []; Applied := [] |}.

(** Modelled from the spec: applying one event of the history ("apply in
    order to a (which advances its version after each applied event)";
    "after applying history, version equals version of last applied
    event"). *)
Definition applyHistoryEvent (a : Aggregate) (evt : event.Event) : Aggregate :=
  {| AggregateName := AggregateName a;
     AggregateID := AggregateID a;
     AggregateVersion := event.AggregateVersion evt;
     AggregateChanges := AggregateChanges a;
     Applied := Applied a ++ [evt] |}.

(** Modelled from the spec: [aggregate.ApplyHistory]; the spec names no
    failure of it. *)
Definition ApplyHistory (a : Aggregate) (events : list event.Event)
  : Aggregate * option error :=
  (fold_left applyHistoryEvent events a, None).

(** Modelled from the spec: [FlushChanges] ("on success, clear
    uncommitted changes"). *)
Definition FlushChanges (a : Aggregate) : Aggregate :=
  {| AggregateName := AggregateName a;
     AggregateID := AggregateID a;
     AggregateVersion := AggregateVersion a;
     AggregateChanges := [];
     Applied := Applied a |}.

(** [aggregate.Ref], the reference to an aggregate by name and id. *)
Record Ref : Type := {
  Name : string;
  ID : uuid.UUID
}.

#[global] Instance Ref_eq_dec : EqDecision Ref.
Proof. solve_decision. Defined.

#[global] Instance Ref_countable : Countable Ref.
Proof.
  refine (inj_countable' (fun r => (Name r, ID r))
            (fun p => {| Name := p.1; ID := p.2 |}) _).
  by intros [].
Defined.

End aggregate.

(** ** The aggregate repository *)

Module repository.

Section repository.

Context {S : Type} `{!Store S}.

(** The repository acts on the store it holds and on the aggregate it is
    given: both are threaded through. *)
Definition Save (store : S) (a : aggregate.Aggregate)
  : S * aggregate.Aggregate * option error :=
  match Insert store (aggregate.AggregateChanges a) with
  | (store', Some err) => (store', a, Some (Errorf "insert events" err))
  | (store', None) => (store', aggregate.FlushChanges a, None)
  end.

Definition queryEvents (store : S) (q : query.Query)
  : list event.Event * option error :=
  match Query store q with
  | inl err => ([], Some (Errorf "query events" err))
  | inr str =>
      match All str with
      | (events, Some err) => (events, Some (Errorf "stream" err))
      | (events, None) => (events, None)
      end
  end.

(** The query [fetch] builds from the aggregate and the extra options. *)
Definition fetchQuery (a : aggregate.Aggregate) (opts : list query.Option)
  : query.Query :=
  query.New
    ([ query.AggregateName [aggregate.AggregateName a];
       query.AggregateID [aggregate.AggregateID a];
       query.SortBy event.SortAggregateVersion event.SortAsc ] ++ opts).

Definition fetch (store : S) (a : aggregate.Aggregate)
    (opts : list query.Option) : aggregate.Aggregate * option error :=
  match queryEvents store (fetchQuery a opts) with
  | (_, Some err) => (a, Some (Errorf "query events" err))
  | (events, None) =>
      match aggregate.ApplyHistory a events with
      | (a', Some err) => (a', Some (Errorf "apply events" err))
      | (a', None) => (a', None)
      end
  end.

Definition Fetch (store : S) (a : aggregate.Aggregate)
  : aggregate.Aggregate * option error :=
  fetch store a
    [ query.AggregateVersion
        [ version.WithMin [int_add (aggregate.AggregateVersion a) 1] ] ].

Definition FetchVersion (store : S) (a : aggregate.Aggregate) (v : Z)
  : aggregate.Aggregate * option error :=
  let v := if v <? 0 then 0 else v in
  match
    fetch store a
      [ query.AggregateVersion
          [ version.WithMin [int_add (aggregate.AggregateVersion a) 1];
            version.WithMax [v] ] ]
  with
  | (a', Some err) => (a', Some err)
  | (a', None) =>
      if bool_decide (aggregate.AggregateVersion a' <> v)
      then (a', Some ErrVersionNotFound)
      else (a', None)
  end.

End repository.

Section delete.

Context {S : Type} `{!Store S, !Deleter S}.

(** The errors [Delete] returns, one per return statement:
    ["query events: %w"] around the error of the query,
    ["delete %q event (ID=%s): %w"] around the error of the store for an
    event, and ["stream: %w"] formatted with the variable [err] of the
    query, which is [nil] at that point. *)
Inductive deleteError : Type :=
| deleteQueryFailed (err : error)
| deleteEventFailed (evt : event.Event) (err : error)
| deleteStreamFailed.

(** The loop of [Delete] over the events of the stream, each deleted
    with the [Delete] of the store. *)
Fixpoint deleteEach (store : S) (events : list event.Event)
  : S * option (event.Event * error) :=
  match events with
  | [] => (store, None)
  | evt :: events' =>
      match Delete (Deleter := Deleter0) store evt with
      | (store', Some err) => (store', Some (evt, err))
      | (store', None) => deleteEach store' events'
      end
  end.

Definition deleteQuery (a : aggregate.Aggregate) : query.Query :=
  query.New
    [ query.AggregateName [aggregate.AggregateName a];
      query.AggregateID [aggregate.AggregateID a] ].

Definition Delete (store : S) (a : aggregate.Aggregate)
  : S * option deleteError :=
  match Query store (deleteQuery a) with
  | inl err => (store, Some (deleteQueryFailed err))
  | inr str =>
      match deleteEach store (stream_events str) with
      | (store', Some (evt, err)) => (store', Some (deleteEventFailed evt err))
      | (store', None) =>
          match stream_err str with
          | Some _ => (store', Some deleteStreamFailed)
          | None => (store', None)
          end
      end
  end.

End delete.

End repository.

(** ** Projection jobs and their query cache *)

Module projection.

(** The outcome of one [select] of a goroutine that watches its context:
    the [<-ctx.Done()] case, or the other case of the statement. *)
Inductive selected : Type :=
| ctxDone
| proceed.

#[global] Instance selected_eq_dec : EqDecision selected.
Proof. solve_decision. Defined.

(** A projection target; [Progress] is [None] for a target that is not
    [ProgressAware]. *)
Record Target : Type := {
  Progress : option stdtime.Time
}.

(** What [queryCache.run] hands back: the replay of a cached slice, or
    the build over the stream of the store, each run by a goroutine of
    its own ([eventStream], [intercept]). *)
Inductive running : Type :=
| replay (events : list event.Event)
| build (hash : N) (str : Stream).

Section projection.

Context {S : Type} `{!Store S}.

(** [hashQuery] is the SHA-256 of the printed query; the fingerprint
    function is a parameter, a [[32]byte] being the number it encodes. *)
Variable hashQuery : query.Query -> N.

(** The code of [query.Merge], [time.After] and [query.Test] is not
    among the sources; the job is parametric in them. *)
Variable Merge : query.Query -> query.Query -> query.Query.
Variable After : stdtime.Time -> time.Option.
Variable Test : query.Query -> event.Event -> bool.

Record queryCache : Type := {
  store : S;
  locks : gset N;
  cache : gmap N (list event.Event)
}.

Definition newQueryCache (store : S) : queryCache :=
  {| store := store; locks := ∅; cache := ∅ |}.

(** [cached] returns a copy of the cached slice. *)
Definition cached (c : queryCache) (hash : N) : option (list event.Event) :=
  cache c !! hash.

(** [acquireQueryLock] creates the mutex of the fingerprint when it is
    missing; run to its end, [run] has released it again. *)
Definition acquireQueryLock (c : queryCache) (h : N) : queryCache :=
  {| store := store c; locks := {[ h ]} ∪ locks c; cache := cache c |}.

Definition update (c : queryCache) (hash : N) (events : list event.Event)
  : queryCache :=
  {| store := store c; locks := locks c;
     cache := <[ hash := events ]> (cache c) |}.

Definition run (c : queryCache) (q : query.Query)
  : queryCache * (error + running) :=
  let hash := hashQuery q in
  match cached c hash with
  | Some events => (c, inr (replay events))
  | None =>
      let c := acquireQueryLock c hash in
      match cached c hash with
      | Some events => (c, inr (replay events))
      | None =>
          match Query (store c) q with
          | inl err => (c, inl (Errorf "query events" err))
          | inr str => (c, inr (build hash str))
          end
      end
  end.

(** How the goroutine of [intercept] ends: on the closed input after
    updating the cache, or on the canceled context. *)
Inductive ending : Type :=
| streamEnded
| canceled.

(** The loop of [intercept]: [in_] is what the input channel delivers
    before it is closed, [sel] the outcomes of the successive [select]s
    (outcomes beyond the list are [proceed]), [events] the slice
    accumulated so far.  An event is appended exactly when it has been
    sent on [out]. *)
Fixpoint interceptLoop (in_ : list event.Event) (sel : list selected)
    (events : list event.Event) {struct in_}
  : list event.Event * ending :=
  match sel with
  | ctxDone :: _ => (events, canceled)
  | _ =>
      match in_ with
      | [] => (events, streamEnded)
      | evt :: in' =>
          match drop 1 sel with
          | ctxDone :: _ => (events, canceled)
          | sel' => interceptLoop in' (drop 1 sel') (events ++ [evt])
          end
      end
  end.

(** [intercept]: the cache after the goroutine has ended, and the events
    it has sent on [out]. *)
Definition intercept (c : queryCache) (sel : list selected)
    (in_ : list event.Event) (hash : N)
  : queryCache * list event.Event :=
  match interceptLoop in_ sel [] with
  | (events, streamEnded) => (update c hash events, events)
  | (events, canceled) => (c, events)
  end.

(** [eventStream]: the events the replay goroutine sends on [out]. *)
Fixpoint eventStream (sel : list selected) (events : list event.Event)
  : list event.Event :=
  match events with
  | [] => []
  | evt :: events' =>
      match sel with
      | ctxDone :: _ => []
      | _ => evt :: eventStream (drop 1 sel) events'
      end
  end.

(** A run followed to the end of its goroutine: the cache, the events
    the consumer has received and the errors of the stream. *)
Definition runToEnd (c : queryCache) (sel : list selected) (q : query.Query)
  : queryCache * (error + list event.Event * list error) :=
  match run c q with
  | (c', inl err) => (c', inl err)
  | (c', inr (replay events)) => (c', inr (eventStream sel events, []))
  | (c', inr (build hash str)) =>
      let (c'', out) := intercept c' sel (stream_events str) hash in
      (c'', inr (out, option_list (stream_err str)))
  end.

Record job : Type := {
  job_query : query.Query;
  job_aggregateQuery : option query.Query;
  job_beforeEvent : list (event.Event -> list event.Event * option error);
  job_filter : list query.Query;
  job_reset : bool
}.

(** Modelled from the spec: [streams.BeforeContext] under the wrapper of
    [applyBeforeEvent] ("outputs are inserted into the downstream stream
    immediately before the triggering event"; "errors from any
    interceptor are forwarded to the job's error channel and do not drop
    the triggering event"). *)
Definition BeforeContext
    (before : event.Event -> list event.Event * option error)
    (events : list event.Event) : list event.Event * list error :=
  fold_left
    (fun (acc : list event.Event * list error) evt =>
       match before evt with
       | (_, Some err) =>
           (acc.1 ++ [evt],
            acc.2 ++ [Errorf ("before " +:+ event.Name evt +:+ " event") err])
       | (add, None) => (acc.1 ++ add ++ [evt], acc.2)
       end)
    events ([], []).

Definition applyBeforeEvent (j : job) (events : list event.Event)
    (errs : list error) : list event.Event * list error :=
  fold_left
    (fun (acc : list event.Event * list error) before =>
       let (events', errs') := BeforeContext before acc.1 in
       (events', acc.2 ++ errs'))
    (job_beforeEvent j) (events, errs).

(** Modelled from the spec: [event.Filter] ("apply in-memory filters";
    an event is kept when it matches every query). *)
Definition Filter (events : list event.Event) (filter : list query.Query)
  : list event.Event :=
  List.filter (fun evt => forallb (fun q => Test q evt) filter) events.

Definition queryEvents (j : job) (c : queryCache) (sel : list selected)
    (q : query.Query) (filter : list query.Query)
  : queryCache * (error + list event.Event * list error) :=
  match runToEnd c sel q with
  | (c', inl err) => (c', inl err)
  | (c', inr (str, errs)) =>
      let (str, errs) :=
        match job_beforeEvent j with
        | [] => (str, errs)
        | _ => applyBeforeEvent j str errs
        end in
      let filter := job_filter j ++ filter in
      let str :=
        match filter with
        | [] => str
        | _ => Filter str filter
        end in
      (c', inr (str, errs))
  end.

Definition Events (j : job) (c : queryCache) (sel : list selected)
    (filter : list query.Query)
  : queryCache * (error + list event.Event * list error) :=
  queryEvents j c sel (job_query j) filter.

Definition EventsFor (j : job) (c : queryCache) (sel : list selected)
    (target : Target)
  : queryCache * (error + list event.Event * list error) :=
  let q := job_query j in
  let q :=
    match Progress target with
    | Some progressTime =>
        if negb (stdtime.IsZero progressTime)
        then Merge q
               (query.New
                  [ query.Time
                      [ After (stdtime.Add progressTime
                                 (- stdtime.Nanosecond)) ] ])
        else q
    | None => q
    end in
  queryEvents j c sel q [].

Definition EventsOf (j : job) (c : queryCache) (sel : list selected)
    (aggregateName : list string)
  : queryCache * (error + list event.Event * list error) :=
  match aggregateName with
  | [] => Events j c sel []
  | _ => Events j c sel [query.New [query.AggregateName aggregateName]]
  end.

(** The reference [Aggregates] extracts from an event. *)
Definition refOf (evt : event.Event) : aggregate.Ref :=
  {| aggregate.Name := event.AggregateName evt;
     aggregate.ID := event.AggregateID evt |}.

(** The goroutine of [Aggregates]: [found] is the set of the references
    met so far; a reference met for the first time is sent on [out]
    under a [select] with the context, whose outcomes are [sel]. *)
Fixpoint aggregatesLoop (events : list event.Event) (sel : list selected)
    (found : gset aggregate.Ref) : list aggregate.Ref :=
  match events with
  | [] => []
  | evt :: events' =>
      let ref := refOf evt in
      if decide (ref ∈ found) then aggregatesLoop events' sel found
      else
        let found := {[ ref ]} ∪ found in
        match sel with
        | ctxDone :: _ => []
        | _ => ref :: aggregatesLoop events' (drop 1 sel) found
        end
  end.

(** [Aggregates]: [sel] are the outcomes of the [select]s of the query
    goroutine, [selOut] those of the goroutine of [Aggregates]. *)
Definition Aggregates (j : job) (c : queryCache) (sel selOut : list selected)
    (names : list string)
  : queryCache * (error + list aggregate.Ref * list error) :=
  let (c', result) :=
    match job_aggregateQuery j with
    | Some aggregateQuery =>
        let filters :=
          match names with
          | [] => []
          | _ => [query.New [query.AggregateName names]]
          end in
        queryEvents j c sel aggregateQuery filters
    | None => EventsOf j c sel names
    end in
  match result with
  | inl err => (c', inl (Errorf "query events" err))
  | inr (events, errs) => (c', inr (aggregatesLoop events selOut ∅, errs))
  end.

End projection.

Arguments queryCache : clear implicits.

End projection.

(** ** Schedules and the subscription pipeline *)

Module project.

(** The ticket a schedule emits. *)
Record job : Type := {
  aggregateName : string;
  aggregateID : uuid.UUID
}.

#[global] Instance job_eq_dec : EqDecision job.
Proof. solve_decision. Defined.

Section schedules.

(** The code of [query.Test] is not among the sources; the schedules
    are parametric in it. *)
Variable Test : query.Query -> event.Event -> bool.

Record continously : Type := {
  filter : query.Query;
  events : list string
}.

Definition shouldDiscard (evt : event.Event) (q : query.Query) : bool :=
  if bool_decide (event.AggregateName evt = EmptyString) ||
     bool_decide (event.AggregateID evt = uuid.Nil)
  then true
  else negb (Test q evt).

(** [handleEvents]: the tickets sent on [jobs] for the events received
    from the bus, in the order they are received. *)
Fixpoint handleEvents (c : continously) (received : list event.Event)
  : list job :=
  match received with
  | [] => []
  | evt :: received' =>
      if shouldDiscard evt (filter c) then handleEvents c received'
      else {| aggregateName := event.AggregateName evt;
              aggregateID := event.AggregateID evt |}
           :: handleEvents c received'
  end.

End schedules.

(** *** The periodic schedule *)

Section periodic.

Context {S : Type} `{!Store S}.

Variable Test : query.Query -> event.Event -> bool.

(** The fields [filter], [store] and [names] of the schedule; the
    interval only paces the ticks. *)
Record periodically : Type := {
  periodically_filter : query.Query;
  periodically_store : S;
  periodically_names : list string
}.

(** The query of a tick. *)
Definition tickQuery (p : periodically) : query.Query :=
  query.New
    [ query.AggregateName (periodically_names p);
      query.AggregateVersion [version.WithExact [0]] ].

(** What the callback of a tick sends on [jobs] for an event. *)
Definition tickJobs (p : periodically) (evt : event.Event) : list job :=
  if shouldDiscard Test evt (periodically_filter p) then []
  else [ {| aggregateName := event.AggregateName evt;
            aggregateID := event.AggregateID evt |} ].

(** One turn of the loop of [handleTicks]: the tickets sent on [jobs],
    the errors sent on [errs], and whether the goroutine goes on to wait
    for the next tick. *)
Definition handleTick (p : periodically) : list job * list error * bool :=
  match Query (periodically_store p) (tickQuery p) with
  | inl err => ([], [Errorf "query base events" err], false)
  | inr str =>
      match Walk (tickJobs p) str with
      | (jobs, Some err) => (jobs, [Errorf "event stream" err], true)
      | (jobs, None) => (jobs, [], true)
      end
  end.

End periodic.

(** *** Graceful stop *)

Record subscription : Type := {
  stopTimeout : stdtime.Duration
}.

Definition StopTimeout (d : stdtime.Duration) (s : subscription)
  : subscription :=
  {| stopTimeout := d |}.

(** [newSubscription]: the zero subscription with the options applied in
    order. *)
Definition newSubscription (opts : list (subscription -> subscription))
  : subscription :=
  fold_left (fun sub opt => opt sub) opts {| stopTimeout := 0 |}.

(** A channel [handleCancel] waits on becoming ready: [handleDone] is
    closed, the parent context is done, or the timer delivers. *)
Inductive signal : Type :=
| handleDone
| parentDone
| timerFired.

#[global] Instance signal_eq_dec : EqDecision signal.
Proof. solve_decision. Defined.

(** Where [handleCancel] stands: blocked in its first [select], blocked
    in its second [select] (with the duration of the timer it has
    started, [None] when [timeout] is the nil channel), or returned, the
    deferred [close(sub.stop)] done. *)
Inductive cancelState : Type :=
| awaitCancel
| awaitHandleDone (timer : option stdtime.Duration)
| stopClosed.

#[global] Instance cancelState_eq_dec : EqDecision cancelState.
Proof. solve_decision. Defined.

Definition handleCancelStep (sub : subscription) (st : cancelState)
    (sig : signal) : cancelState :=
  match st with
  | awaitCancel =>
      match sig with
      | handleDone => stopClosed
      | parentDone =>
          awaitHandleDone
            (if stopTimeout sub >? 0 then Some (stopTimeout sub) else None)
      | timerFired => awaitCancel
      end
  | awaitHandleDone timer =>
      match sig with
      | handleDone => stopClosed
      | timerFired =>
          match timer with
          | Some _ => stopClosed
          | None => awaitHandleDone None
          end
      | parentDone => awaitHandleDone timer
      end
  | stopClosed => stopClosed
  end.

(** The [Context] handed to the consumer of a subscription; the
    embedded [context.Background()] and the projector are left out. *)
Record pcontext : Type := {
  pcontext_aggregateName : string;
  pcontext_aggregateID : uuid.UUID
}.

#[global] Instance pcontext_eq_dec : EqDecision pcontext.
Proof. solve_decision. Defined.

Definition newContext (name : string) (id : uuid.UUID) : pcontext :=
  {| pcontext_aggregateName := name; pcontext_aggregateID := id |}.

(** The outcome of one [select] of [handleJobs]: the [<-sub.stop] case,
    or the other case of the statement. *)
Inductive picked : Type :=
| stopped
| other.

#[global] Instance picked_eq_dec : EqDecision picked.
Proof. solve_decision. Defined.

(** [handleJobs]: [jobs] is what the schedule sends before it closes its
    channel, [sel] the outcomes of the successive [select]s (outcomes
    beyond the list are [other]); the result are the contexts sent on
    [sub.out] before it is closed. *)
Fixpoint handleJobs (jobs : list job) (sel : list picked)
  : list pcontext :=
  match sel with
  | stopped :: _ => []
  | _ =>
      match jobs with
      | [] => []
      | job :: jobs' =>
          match drop 1 sel with
          | stopped :: _ => []
          | sel' =>
              newContext (aggregateName job) (aggregateID job)
              :: handleJobs jobs' (drop 1 sel')
          end
      end
  end.

(** [handleCancel] over the signals that reach it, in order. *)
Definition handleCancel (sub : subscription) (signals : list signal)
  : cancelState :=
  fold_left (handleCancelStep sub) signals awaitCancel.

End project.

(** ** The store contract in the words of the specification *)

Module contract.

(** The current version of an aggregate: the version of its state
    record, [0] when it has none. *)
Definition currentVersion (s : mongostore.Store) (name : string)
    (id : uuid.UUID) : Z :=
  match mongostore.FindOne (mongostore.states s) name id with
  | Some st => mongostore.state_Version st
  | None => 0
  end.

(** "All events in the call must belong to the same aggregate (same
    name, same id) and their versions must form a contiguous increasing
    sequence starting at" [v]. *)
Fixpoint sequenceFrom (name : string) (id : uuid.UUID) (v : Z)
    (events : list event.Event) : bool :=
  match events with
  | [] => true
  | evt :: events' =>
      bool_decide (event.AggregateName evt = name) &&
      bool_decide (event.AggregateID evt = id) &&
      bool_decide (event.AggregateVersion evt = v) &&
      sequenceFrom name id (v + 1) events'
  end.

(** The events of a call continue the aggregate of the first event at
    [currentVersion + 1]. *)
Definition continuesAggregate (s : mongostore.Store)
    (events : list event.Event) : bool :=
  match events with
  | [] => true
  | evt0 :: _ =>
      let name := event.AggregateName evt0 in
      let id := event.AggregateID evt0 in
      sequenceFrom name id (currentVersion s name id + 1) events
  end.

(** The first event of a call carries an aggregate whose stored version
    has already reached the version of that event. *)
Definition staleFirstEvent (s : mongostore.Store)
    (events : list event.Event) : bool :=
  match events with
  | [] => false
  | evt0 :: _ =>
      event.hasAggregate evt0 &&
      (event.AggregateVersion evt0 <=?
         currentVersion s (event.AggregateName evt0) (event.AggregateID evt0))
  end.

(** A call whose version validation is skipped: no events, or a first
    event without an aggregate. *)
Definition withoutAggregate (events : list event.Event) : bool :=
  match events with
  | [] => true
  | evt0 :: _ => negb (event.hasAggregate evt0)
  end.

(** The documents of the aggregate [(name, id)] whose version lies
    between [lo] and [hi]. *)
Definition ofAggregateBetween (name : string) (id : uuid.UUID) (lo hi : Z)
    (e : mongostore.entry) : bool :=
  bool_decide (mongostore.entry_AggregateName e = name) &&
  bool_decide (mongostore.entry_AggregateID e = id) &&
  (lo <=? mongostore.entry_AggregateVersion e) &&
  (mongostore.entry_AggregateVersion e <=? hi).

(** Ascending aggregate version. *)
Definition versionOrder (x y : event.Event) : Prop :=
  event.AggregateVersion x <= event.AggregateVersion y.

(** The version an aggregate has after the events of a history have
    been applied to it. *)
Definition versionAfter (a : aggregate.Aggregate)
    (events : list event.Event) : Z :=
  default (aggregate.AggregateVersion a)
    (event.AggregateVersion <$> last events).

End contract.

(** ** Sample data *)

Module sample.

Definition emptyStore : mongostore.Store :=
  {| mongostore.entries := []; mongostore.states := [] |}.

(** A wall-clock instant in the year 2020. *)
Definition day : stdtime.Time :=
  stdtime.unixEpoch + 1600000000 * 1000000000.

(** An event of aggregate [("foo", 7)] with the given id and version. *)
Definition foo (id : uuid.UUID) (v : Z) : event.Event :=
  {| event.ID := id; event.Name := "foo"; event.Time := day + v;
     event.Data := ""%string; event.AggregateName := "foo";
     event.AggregateID := 7%N; event.AggregateVersion := v |}.

(** An event that belongs to no aggregate. *)
Definition note (id : uuid.UUID) : event.Event :=
  {| event.ID := id; event.Name := "note"; event.Time := day + 2000;
     event.Data := ""%string; event.AggregateName := ""%string;
     event.AggregateID := uuid.Nil; event.AggregateVersion := 0 |}.

(** The store after the versions 1, 2 and 3 of [("foo", 7)]. *)
Definition fooStore : mongostore.Store :=
  (mongostore.Insert emptyStore [foo 1%N 1; foo 2%N 2; foo 3%N 3]).1.

(** A fresh aggregate [("foo", 7)] and one with an uncommitted change
    that repeats version 3. *)
Definition fooAggregate : aggregate.Aggregate := aggregate.New "foo" 7%N.

Definition staleAggregate : aggregate.Aggregate :=
  {| aggregate.AggregateName := "foo"; aggregate.AggregateID := 7%N;
     aggregate.AggregateVersion := 2;
     aggregate.AggregateChanges := [foo 9%N 3];
     aggregate.Applied := [foo 1%N 1; foo 2%N 2] |}.

(** A ["granted"] event of the aggregate with the given name. *)
Definition granted (name : string) : event.Event :=
  {| event.ID := 11%N; event.Name := "granted"; event.Time := day;
     event.Data := ""%string; event.AggregateName := name;
     event.AggregateID := 7%N; event.AggregateVersion := 1 |}.

(** A stand-in for [query.Test] in the examples: whatever the query, it
    keeps out the events of the aggregate name ["ignored"]. *)
Definition notIgnored (q : query.Query) (evt : event.Event) : bool :=
  negb (bool_decide (event.AggregateName evt = "ignored")).

(** A stand-in for the fingerprint of a query in the examples: queries
    with the same number of aggregate names share it. *)
Definition fingerprint (q : query.Query) : N :=
  N.of_nat (length (query.AggregateNames q)).

(** The fresh cache of a job over the store with three events. *)
Definition fooCache : projection.queryCache mongostore.Store :=
  projection.newQueryCache fooStore.

(** The three events as the store returns them. *)
Definition fooEvents : list event.Event :=
  mongostore.entryEvent <$> mongostore.entries fooStore.

(** The first execution of the empty query by a job over that store,
    its context never canceled. *)
Definition firstRun
  : projection.queryCache mongostore.Store *
    (error + list event.Event * list error) :=
  projection.runToEnd fingerprint fooCache [] query.empty.

End sample.

(** ** Invariants and reference predicates of the store *)

Module invariant.

(** The unique index [goes_id]: no two documents share an id. *)
Definition uniqueIDs (s : mongostore.Store) : Prop :=
  NoDup (mongostore.entry_ID <$> mongostore.entries s).

(** The key of the partial unique index [goes_aggregate]. *)
Definition aggregateKey (e : mongostore.entry) : string * uuid.UUID * Z :=
  (mongostore.entry_AggregateName e, mongostore.entry_AggregateID e,
   mongostore.entry_AggregateVersion e).

(** The partial unique index [goes_aggregate]: no two documents with an
    aggregate name and an aggregate id share name, id and version. *)
Definition uniqueAggregateVersions (s : mongostore.Store) : Prop :=
  NoDup (aggregateKey <$>
           List.filter mongostore.inAggregateIndex (mongostore.entries s)).

(** The key of a state record, and the states collection holding at
    most one record per aggregate (its index [goes_aggregate] is not
    unique). *)
Definition stateKey (st : mongostore.state) : string * uuid.UUID :=
  (mongostore.state_AggregateName st, mongostore.state_AggregageID st).

Definition uniqueStates (s : mongostore.Store) : Prop :=
  NoDup (stateKey <$> mongostore.states s).

(** The time of the event is one [UnixNano] can express in an [int64]. *)
Definition timeInRange (evt : event.Event) : Prop :=
  int_range (event.Time evt - stdtime.unixEpoch).

(** The documents of the aggregate [(name, id)]. *)
Definition ofAggregate (name : string) (id : uuid.UUID)
    (e : mongostore.entry) : bool :=
  bool_decide (mongostore.entry_AggregateName e = name) &&
  bool_decide (mongostore.entry_AggregateID e = id).

(** The documents of the aggregate [(name, id)] from version [lo] on. *)
Definition ofAggregateFrom (name : string) (id : uuid.UUID) (lo : Z)
    (e : mongostore.entry) : bool :=
  ofAggregate name id e && (lo <=? mongostore.entry_AggregateVersion e).

(** Membership in a constraint list, an empty list constraining
    nothing. *)
Definition memberOrAny {A : Type} `{EqDecision A} (x : A) (l : list A)
  : bool :=
  match l with
  | [] => true
  | _ => bool_decide (x ∈ l)
  end.

(** Some bound of a constraint list holds, an empty list constraining
    nothing. *)
Definition someOrAny {A : Type} (holds : A -> bool) (l : list A) : bool :=
  match l with
  | [] => true
  | _ => existsb holds l
  end.

(** The documents a query without time ranges selects, field by
    field. *)
Definition selects (q : query.Query) (e : mongostore.entry) : bool :=
  let times := query.Times q in
  let versions := query.AggregateVersions q in
  let v := mongostore.entry_AggregateVersion e in
  memberOrAny (mongostore.entry_Name e) (query.Names q) &&
  memberOrAny (mongostore.entry_ID e) (query.IDs q) &&
  memberOrAny (mongostore.entry_TimeNano e)
    (stdtime.UnixNano <$> time.Exact times) &&
  (stdtime.IsZero (time.Min times) ||
   (stdtime.UnixNano (time.Min times) <=? mongostore.entry_TimeNano e)) &&
  (stdtime.IsZero (time.Max times) ||
   (mongostore.entry_TimeNano e <=? stdtime.UnixNano (time.Max times))) &&
  memberOrAny (mongostore.entry_AggregateName e) (query.AggregateNames q) &&
  memberOrAny (mongostore.entry_AggregateID e) (query.AggregateIDs q) &&
  memberOrAny v (version.Exact versions) &&
  someOrAny (fun lo => lo <=? v) (version.Min versions) &&
  someOrAny (fun hi => v <=? hi) (version.Max versions) &&
  someOrAny (fun r : Z * Z => (r.1 <=? v) && (v <=? r.2))
    (version.Ranges versions).

(** The cache of a projection job holds, under the fingerprint of a
    query, the events the stream of the store delivers for that
    query. *)
Definition cacheFaithful {S : Type} `{!Store S} (hashQuery : query.Query -> N)
    (c : projection.queryCache S) : Prop :=
  forall q events,
    projection.cached c (hashQuery q) = Some events ->
    exists str,
      Query (projection.store c) q = inr str /\ stream_events str = events.

End invariant.

(** * Properties *)

(** ** Event store: [Insert] *)

Section mongo_insert.

Import mongostore contract.

Implicit Types (s : mongostore.Store) (events : list event.Event).

Lemma validateVersion_eq s events :
  validateVersion s events =
  match events with
  | [] => (zeroState, None)
  | evt0 :: _ =>
      if event.hasAggregate evt0 then
        let name := event.AggregateName evt0 in
        let id := event.AggregateID evt0 in
        let st := default {| state_AggregateName := name;
                             state_AggregageID := id;
                             state_Version := 0 |}
                    (FindOne (states s) name id) in
        (st, if event.AggregateVersion evt0 <=? currentVersion s name id
             then Some (VersionError name id (currentVersion s name id) evt0)
             else None)
      else (zeroState, None)
  end.
Proof.
  destruct events as [|evt0 rest]; [done|].
  unfold validateVersion, event.hasAggregate, currentVersion.
  destruct (bool_decide _ || bool_decide _); simpl; [done|].
  destruct (FindOne _ _ _) as [st|]; simpl;
    rewrite Z.geb_leb; by destruct (_ <=? _).
Qed.

Lemma validateVersion_stale s events :
  (validateVersion s events).2 <> None <-> staleFirstEvent s events = true.
Proof.
  rewrite validateVersion_eq. unfold staleFirstEvent.
  destruct events as [|evt0 rest]; simpl; [done|].
  destruct (event.hasAggregate evt0); simpl; [|done].
  by destruct (_ <=? _).
Qed.

Lemma validateVersion_error s events st err :
  validateVersion s events = (st, Some err) ->
  exists evt0 rest,
    events = evt0 :: rest /\
    err = VersionError (event.AggregateName evt0) (event.AggregateID evt0)
            (currentVersion s (event.AggregateName evt0) (event.AggregateID evt0))
            evt0.
Proof.
  rewrite validateVersion_eq.
  destruct events as [|evt0 rest]; [done|].
  destruct (event.hasAggregate evt0); simpl; [|done].
  destruct (_ <=? _); [|done].
  intros [= _ <-]. by exists evt0, rest.
Qed.

Lemma insert_inr s evt s' :
  insert s evt = inr s' ->
  entries s' = entries s ++ [newEntry evt] /\ states s' = states s.
Proof.
  unfold insert, InsertOne.
  destruct (existsb _ _); [done|].
  destruct (_ && _); [done|].
  by intros [= <-].
Qed.

Lemma insert_inl s evt err :
  insert s evt = inl err -> AsVersionError err = None.
Proof.
  unfold insert, InsertOne.
  destruct (existsb _ _); [by intros [= <-]|].
  destruct (_ && _); [by intros [= <-]|done].
Qed.

Lemma insertAll_inr events : forall s s',
  insertAll s events = inr s' ->
  entries s' = entries s ++ (newEntry <$> events) /\ states s' = states s.
Proof.
  induction events as [|evt events IH]; intros s s'; simpl.
  - intros [= <-]. by rewrite app_nil_r.
  - destruct (insert s evt) as [err|s1] eqn:Hins; [done|].
    intros Hall. apply insert_inr in Hins as [He Hs].
    apply IH in Hall as [He' Hs'].
    rewrite He', He, Hs', Hs, <- app_assoc. done.
Qed.

Lemma insertAll_inl events : forall s evt err,
  insertAll s events = inl (evt, err) -> AsVersionError err = None.
Proof.
  induction events as [|evt0 events IH]; intros s evt err; simpl; [done|].
  destruct (insert s evt0) as [err0|s1] eqn:Hins.
  - intros [= _ <-]. by eapply insert_inl.
  - apply IH.
Qed.

Lemma updateState_zeroState s events : updateState s zeroState events = s.
Proof. unfold updateState. by destruct (last events). Qed.

Lemma updateState_entries s st events :
  entries (updateState s st events) = entries s.
Proof.
  unfold updateState. destruct (last events); [|done].
  by destruct (_ || _).
Qed.

(** The result of [Insert], case by case. *)
Lemma Insert_cases s events :
  (exists st err,
      validateVersion s events = (st, Some err) /\
      Insert s events = (s, Some (Errorf "validate version" err))) \/
  (exists st evt err,
      validateVersion s events = (st, None) /\
      insertAll s events = inl (evt, err) /\
      Insert s events =
        (s, Some (Errorf ("insert " +:+ event.Name evt) err))) \/
  (exists st s',
      validateVersion s events = (st, None) /\
      insertAll s events = inr s' /\
      Insert s events = (updateState s' st events, None)).
Proof.
  unfold Insert.
  destruct (validateVersion s events) as [st [err|]] eqn:Hv.
  - left. by exists st, err.
  - destruct (insertAll s events) as [[evt err]|s'] eqn:Hall.
    + right; left. by exists st, evt, err.
    + right; right. by exists st, s'.
Qed.

(** [Insert] fails with a [*VersionError] exactly when the first event is
    stale. *)
Lemma Insert_isVersionError s events :
  isVersionError (Insert s events).2 = staleFirstEvent s events.
Proof.
  destruct (Insert_cases s events)
    as [(st & err & Hv & ->)|[(st & evt & err & Hv & Hall & ->)
                            |(st & s' & Hv & Hall & ->)]]; simpl.
  - assert (Hs : staleFirstEvent s events = true).
    { apply validateVersion_stale. by rewrite Hv. }
    rewrite Hs.
    apply validateVersion_error in Hv as (evt0 & rest & _ & ->). done.
  - apply insertAll_inl in Hall. rewrite Hall. simpl.
    symmetry. apply not_true_is_false. intros Hs.
    apply validateVersion_stale in Hs. by rewrite Hv in Hs.
  - symmetry. apply not_true_is_false. intros Hs.
    apply validateVersion_stale in Hs. by rewrite Hv in Hs.
Qed.

(** A failed [Insert] commits nothing. *)
Lemma Insert_failed_unchanged s events :
  (Insert s events).2 <> None -> (Insert s events).1 = s.
Proof.
  destruct (Insert_cases s events)
    as [(st & err & Hv & ->)|[(st & evt & err & Hv & Hall & ->)
                            |(st & s' & Hv & Hall & ->)]]; simpl; done.
Qed.

(** A stale first event does not continue its aggregate. *)
Lemma staleFirstEvent_not_continues s events :
  staleFirstEvent s events = true -> continuesAggregate s events = false.
Proof.
  destruct events as [|evt0 rest]; simpl; [done|].
  intros [_ Hle%Z.leb_le]%andb_true_iff.
  rewrite (bool_decide_eq_false_2
             (event.AggregateVersion evt0 = _ + 1)) by lia.
  by rewrite andb_false_r.
Qed.

(** The [*VersionError] of a failed validation names the aggregate of
    the first event, its current version and that event. *)
Lemma Insert_VersionError_fields s events err :
  (Insert s events).2 = Some err ->
  is_Some (AsVersionError err) ->
  exists evt0 rest,
    events = evt0 :: rest /\
    AsVersionError err =
      Some (VersionError (event.AggregateName evt0) (event.AggregateID evt0)
              (currentVersion s (event.AggregateName evt0)
                 (event.AggregateID evt0))
              evt0).
Proof.
  destruct (Insert_cases s events)
    as [(st & e & Hv & ->)|[(st & evt & e & Hv & Hall & ->)
                          |(st & s' & Hv & Hall & ->)]]; simpl.
  - intros [= <-] _.
    apply validateVersion_error in Hv as (evt0 & rest & -> & ->).
    by exists evt0, rest.
  - intros [= <-] [x Hx]. simpl in Hx.
    apply insertAll_inl in Hall. by rewrite Hall in Hx.
  - done.
Qed.

(** C1 (amended).  Whenever [Insert] fails with a [*VersionError], the
    events of the call do not continue the aggregate of the first event
    at [currentVersion + 1], and nothing is committed: the store is the
    one before the call.  [Insert] does fail that way whenever the first
    event carries an aggregate whose stored version has reached the
    version of that event. *)
Theorem Insert_version_conflict s events :
  (isVersionError (Insert s events).2 = true ->
     continuesAggregate s events = false /\ (Insert s events).1 = s) /\
  (staleFirstEvent s events = true ->
     isVersionError (Insert s events).2 = true).
Proof.
  split.
  - intros Herr. split.
    + apply staleFirstEvent_not_continues.
      by rewrite <- Insert_isVersionError.
    + apply Insert_failed_unchanged.
      destruct (Insert s events).2; [done|discriminate Herr].
  - intros Hs. by rewrite Insert_isVersionError.
Qed.

(** C1, as stated, fails: on the empty store the versions 1 and 3 of one
    aggregate are no contiguous sequence, and [Insert] commits both
    events and moves the state record to version 3. *)
Lemma Insert_commits_version_gap :
  continuesAggregate sample.emptyStore [sample.foo 1%N 1; sample.foo 2%N 3]
    = false /\
  Insert sample.emptyStore [sample.foo 1%N 1; sample.foo 2%N 3] =
    ({| entries := [newEntry (sample.foo 1%N 1); newEntry (sample.foo 2%N 3)];
        states := [ {| state_AggregateName := "foo";
                       state_AggregageID := 7%N;
                       state_Version := 3 |} ] |},
     None).
Proof. split; reflexivity. Qed.

(** Scenario S2 of the specification: after versions 1 to 3, a second
    event with version 3 is refused with the current version 3. *)
Example Insert_conflict_after_three :
  Insert sample.fooStore [sample.foo 9%N 3] =
    (sample.fooStore,
     Some (Errorf "validate version"
             (VersionError "foo" 7%N 3 (sample.foo 9%N 3)))).
Proof. reflexivity. Qed.




End mongo_insert.

(** ** Aggregate repository *)

Section repository_any_store.

Context {S : Type} `{!Store S}.

Implicit Types (store : S) (a : aggregate.Aggregate).

(** C2 (amended).  [Save] makes one call to the store, [Insert] with the
    uncommitted changes of the aggregate.  When that call succeeds the
    changes are cleared; when it fails the aggregate is left as it was
    and the error of the store is returned wrapped in the context
    ["insert events"], so that a [*VersionError] is still found in the
    chain of the returned error. *)
Theorem Save_inserts_changes store a :
  ((Insert store (aggregate.AggregateChanges a)).2 = None ->
     repository.Save store a =
       ((Insert store (aggregate.AggregateChanges a)).1,
        aggregate.FlushChanges a, None) /\
     aggregate.AggregateChanges (aggregate.FlushChanges a) = []) /\
  (forall err,
     (Insert store (aggregate.AggregateChanges a)).2 = Some err ->
     repository.Save store a =
       ((Insert store (aggregate.AggregateChanges a)).1, a,
        Some (Errorf "insert events" err)) /\
     AsVersionError (Errorf "insert events" err) = AsVersionError err).
Proof.
  unfold repository.Save.
  destruct (Insert store (aggregate.AggregateChanges a)) as [store' [e|]];
    simpl; split; try done.
  by intros err [= ->].
Qed.

(** C9.  A negative requested version is clamped to [0] before anything
    else happens: [FetchVersion] with [v < 0] is [FetchVersion] with [0],
    and it succeeds only when the version of the aggregate after the
    fetch is [0]. *)
Theorem FetchVersion_negative store a v :
  v < 0 ->
  repository.FetchVersion store a v = repository.FetchVersion store a 0 /\
  ((repository.FetchVersion store a v).2 = None ->
     aggregate.AggregateVersion (repository.FetchVersion store a v).1 = 0).
Proof.
  intros Hv. unfold repository.FetchVersion.
  rewrite (proj2 (Z.ltb_lt v 0) Hv). simpl.
  split; [done|].
  destruct (repository.fetch _ _ _) as [a' [err|]]; simpl; [done|].
  case_bool_decide as Hne; simpl; [done|].
  intros _. exact Hne.
Qed.

End repository_any_store.

Lemma FetchVersion_negative_witness :
  repository.FetchVersion sample.fooStore sample.fooAggregate (-1) =
    repository.FetchVersion sample.fooStore sample.fooAggregate 0 /\
  ((repository.FetchVersion sample.fooStore sample.fooAggregate (-1)).2 = None ->
     aggregate.AggregateVersion
       (repository.FetchVersion sample.fooStore sample.fooAggregate (-1)).1 = 0).
Proof.
  apply (FetchVersion_negative sample.fooStore sample.fooAggregate (-1)).
  lia.
Defined.

(** C2, as stated, fails: the store refuses the change with a
    [*VersionError] (wrapped by [Insert] itself), and the error [Save]
    returns is not that error but a wrapper around it. *)
Lemma Save_wraps_version_conflict :
  (Insert sample.fooStore (aggregate.AggregateChanges sample.staleAggregate)).2 =
    Some (Errorf "validate version"
            (VersionError "foo" 7%N 3 (sample.foo 9%N 3))) /\
  (repository.Save sample.fooStore sample.staleAggregate).2 =
    Some (Errorf "insert events"
            (Errorf "validate version"
               (VersionError "foo" 7%N 3 (sample.foo 9%N 3)))) /\
  bool_decide
    ((repository.Save sample.fooStore sample.staleAggregate).2 =
     (Insert sample.fooStore
        (aggregate.AggregateChanges sample.staleAggregate)).2) = false.
Proof. repeat split; reflexivity. Qed.

(** ** Aggregate repository over the MongoDB store *)

Section repository_mongo.

Import mongostore contract.

Implicit Types (s : mongostore.Store) (a : aggregate.Aggregate).

(** The version options [FetchVersion] passes to [fetch]. *)
Local Abbreviation between lo hi :=
  [ query.AggregateVersion [version.WithMin [lo]; version.WithMax [hi]] ].

Lemma makeFilter_fetchQuery a lo hi :
  makeFilter (repository.fetchQuery a (between lo hi)) =
  [ E "aggregateName" [op_in [VString (aggregate.AggregateName a)]];
    E "aggregateId" [op_in [VUUID (aggregate.AggregateID a)]];
    E_or [("aggregateVersion", [op_gte (VInt lo)])];
    E_or [("aggregateVersion", [op_lte (VInt hi)])] ].
Proof. reflexivity. Qed.

Lemma applySortings_fetchQuery a opts :
  applySortings
    (query.Sortings
       (repository.fetchQuery a
          [query.AggregateVersion opts])) =
  [("aggregateVersion", 1)].
Proof. reflexivity. Qed.

Lemma field_aggregateName e :
  field e "aggregateName" = Some (VString (entry_AggregateName e)).
Proof. reflexivity. Qed.

Lemma field_aggregateId e :
  field e "aggregateId" = Some (VUUID (entry_AggregateID e)).
Proof. reflexivity. Qed.

Lemma field_aggregateVersion e :
  field e "aggregateVersion" = Some (VInt (entry_AggregateVersion e)).
Proof. reflexivity. Qed.

Lemma string_compare_refl (x : string) : String.compare x x = Eq.
Proof.
  pose proof (String.compare_antisym x x) as Hc.
  by destruct (String.compare x x).
Qed.

Lemma holds_in_string x y :
  holds (VString x) (op_in [VString y]) = bool_decide (x = y).
Proof.
  simpl. rewrite orb_false_r. apply bool_decide_ext.
  split.
  - intros [= Hc]. by apply String.compare_eq_iff.
  - intros ->. f_equal. apply string_compare_refl.
Qed.

Lemma holds_in_uuid x y :
  holds (VUUID x) (op_in [VUUID y]) = bool_decide (x = y).
Proof.
  simpl. rewrite orb_false_r. apply bool_decide_ext.
  split.
  - intros [= Hc]. by apply N.compare_eq_iff.
  - intros ->. f_equal. apply N.compare_refl.
Qed.

Lemma holds_gte_int x y : holds (VInt x) (op_gte (VInt y)) = (y <=? x).
Proof.
  simpl. destruct (Z.compare_spec x y); symmetry;
    [apply Z.leb_le|apply Z.leb_gt|apply Z.leb_le]; lia.
Qed.

Lemma holds_lte_int x y : holds (VInt x) (op_lte (VInt y)) = (x <=? y).
Proof.
  simpl. destruct (Z.compare_spec x y); symmetry;
    [apply Z.leb_le|apply Z.leb_le|apply Z.leb_gt]; lia.
Qed.

(** The filter of the fetch query selects the documents of the aggregate
    with a version in the requested range. *)
Lemma matches_fetchQuery a lo hi e :
  matches (makeFilter (repository.fetchQuery a (between lo hi))) e =
  ofAggregateBetween (aggregate.AggregateName a) (aggregate.AggregateID a)
    lo hi e.
Proof.
  rewrite makeFilter_fetchQuery.
  unfold matches, ofAggregateBetween, forallb, matchesElement, existsb,
    matchesField, fst, snd.
  rewrite field_aggregateName, field_aggregateId, field_aggregateVersion.
  unfold forallb.
  rewrite holds_in_string, holds_in_uuid, holds_gte_int, holds_lte_int.
  rewrite !andb_true_r, !orb_false_r.
  by rewrite !andb_assoc.
Qed.

Lemma sortedBefore_version e1 e2 :
  sortedBefore [("aggregateVersion", 1)] e1 e2 <->
  entry_AggregateVersion e1 <= entry_AggregateVersion e2.
Proof.
  unfold sortedBefore, compareEntries, compareField.
  rewrite !field_aggregateVersion. simpl.
  destruct (Z.compare_spec (entry_AggregateVersion e1)
              (entry_AggregateVersion e2)); simpl; split; (done || lia).
Qed.

Lemma sortedBefore_version_total :
  Total (sortedBefore [("aggregateVersion", 1)]).
Proof. intros e1 e2. rewrite !sortedBefore_version. lia. Qed.

Lemma sortedBefore_version_trans :
  Transitive (sortedBefore [("aggregateVersion", 1)]).
Proof. intros e1 e2 e3. rewrite !sortedBefore_version. lia. Qed.

Lemma clamp_max v : (if v <? 0 then 0 else v) = Z.max 0 v.
Proof. destruct (Z.ltb_spec v 0); lia. Qed.

(** Away from the bounds of [int] the addition does not wrap. *)
Lemma int_add_in_range x y : int_range (x + y) -> int_add x y = x + y.
Proof.
  unfold int_range, int_add, int_wrap. intros Hr.
  rewrite Z.mod_small; lia.
Qed.

(** The history applied: the events are appended to the applied ones in
    their order, and the version is the one of the last event. *)
Lemma ApplyHistory_fold events : forall a,
  aggregate.Applied (fold_left aggregate.applyHistoryEvent events a) =
    aggregate.Applied a ++ events /\
  aggregate.AggregateVersion (fold_left aggregate.applyHistoryEvent events a) =
    versionAfter a events /\
  aggregate.AggregateName (fold_left aggregate.applyHistoryEvent events a) =
    aggregate.AggregateName a /\
  aggregate.AggregateID (fold_left aggregate.applyHistoryEvent events a) =
    aggregate.AggregateID a /\
  aggregate.AggregateChanges (fold_left aggregate.applyHistoryEvent events a) =
    aggregate.AggregateChanges a.
Proof.
  unfold versionAfter.
  induction events as [|evt events IH] using rev_ind; intros a.
  - simpl. by rewrite app_nil_r.
  - rewrite fold_left_app, last_snoc. simpl.
    destruct (IH a) as (Ha & _ & Hn & Hi & Hc).
    rewrite Ha, Hn, Hi, Hc, app_assoc. done.
Qed.

(** What [fetch] does over the MongoDB store for the version options of
    [FetchVersion]: the events found are applied, and nothing fails. *)
Lemma fetch_mongo s a lo hi :
  repository.fetch s a (between lo hi) =
  (fold_left aggregate.applyHistoryEvent
     (entryEvent <$>
        Find (entries s)
          (makeFilter (repository.fetchQuery a (between lo hi)))
          [("aggregateVersion", 1)])
     a,
   None).
Proof. reflexivity. Qed.

Lemma insertSorted_Permutation sorts e col :
  insertSorted sorts e col ≡ₚ e :: col.
Proof.
  induction col as [|x col IH]; simpl; [done|].
  case_decide; [done|]. by rewrite IH, Permutation_swap.
Qed.

Lemma sortEntries_Permutation sorts col : sortEntries sorts col ≡ₚ col.
Proof.
  induction col as [|x col IH]; simpl; [done|].
  by rewrite insertSorted_Permutation, IH.
Qed.

Lemma insertSorted_Sorted sorts `{!Total (sortedBefore sorts)} e col :
  Sorted (sortedBefore sorts) col ->
  Sorted (sortedBefore sorts) (insertSorted sorts e col).
Proof.
  induction 1 as [|x col Hsorted IH Hhd]; simpl.
  - by repeat constructor.
  - case_decide as Hex.
    + by repeat constructor.
    + constructor; [done|].
      assert (Hxe : sortedBefore sorts x e)
        by (by destruct (total (sortedBefore sorts) e x)).
      destruct Hhd as [|y col Hxy]; simpl; [by constructor|].
      case_decide; by constructor.
Qed.

Lemma sortEntries_Sorted sorts `{!Total (sortedBefore sorts)} col :
  Sorted (sortedBefore sorts) (sortEntries sorts col).
Proof.
  induction col as [|x col IH]; simpl; [constructor|].
  by apply insertSorted_Sorted.
Qed.

(** Without sortings the documents keep their natural order. *)
Lemma sortEntries_nil col : sortEntries [] col = col.
Proof.
  induction col as [|x col IH]; simpl; [done|]. rewrite IH.
  by destruct col.
Qed.

Lemma Find_fetchQuery s a lo hi :
  let found :=
    Find (entries s) (makeFilter (repository.fetchQuery a (between lo hi)))
      [("aggregateVersion", 1)] in
  found ≡ₚ List.filter
             (ofAggregateBetween (aggregate.AggregateName a)
                (aggregate.AggregateID a) lo hi)
             (entries s) /\
  StronglySorted versionOrder (entryEvent <$> found).
Proof.
  simpl. unfold Find. split.
  - rewrite sortEntries_Permutation.
    erewrite List.filter_ext; [done|].
    intros e. apply matches_fetchQuery.
  - apply (StronglySorted_fmap _ (sortedBefore [("aggregateVersion", 1)])).
    + intros e1 e2 H12. by apply sortedBefore_version.
    + apply Sorted_StronglySorted; [apply sortedBefore_version_trans|].
      apply sortEntries_Sorted, sortedBefore_version_total.
Qed.



(** Scenario S1 of the specification, at version 2 of 3. *)
Example FetchVersion_two_of_three :
  repository.FetchVersion sample.fooStore sample.fooAggregate 2 =
    ({| aggregate.AggregateName := "foo"; aggregate.AggregateID := 7%N;
        aggregate.AggregateVersion := 2;
        aggregate.AggregateChanges := [];
        aggregate.Applied :=
          entryEvent <$> [newEntry (sample.foo 1%N 1);
                          newEntry (sample.foo 2%N 2)] |},
     None).
Proof. vm_compute. reflexivity. Qed.

Example FetchVersion_beyond_stored :
  (repository.FetchVersion sample.fooStore sample.fooAggregate 5).2 =
    Some ErrVersionNotFound.
Proof. vm_compute. reflexivity. Qed.

End repository_mongo.

(** ** Schedules *)

Section continuous_schedule.

Import project.

Variable Test : query.Query -> event.Event -> bool.

Implicit Types (c : continously) (evt : event.Event).

Lemma shouldDiscard_eq evt q :
  shouldDiscard Test evt q = negb (event.hasAggregate evt && Test q evt).
Proof.
  unfold shouldDiscard, event.hasAggregate.
  by destruct (bool_decide _ || bool_decide _).
Qed.

Lemma handleEvents_app c received1 received2 :
  handleEvents Test c (received1 ++ received2) =
  handleEvents Test c received1 ++ handleEvents Test c received2.
Proof.
  induction received1 as [|evt received1 IH]; simpl; [done|].
  destruct (shouldDiscard Test evt (filter c)); by rewrite IH.
Qed.

(** C8.  For an event received from the bus, whatever was received
    before and after it, the schedule emits exactly one ticket with the
    aggregate name and id of the event when the event carries an
    aggregate and passes the filter under [Test], and no ticket
    otherwise; an event without an aggregate is always discarded. *)
Theorem handleEvents_emits c before evt after :
  handleEvents Test c (before ++ evt :: after) =
    handleEvents Test c before ++
    (if event.hasAggregate evt && Test (filter c) evt
     then [ {| aggregateName := event.AggregateName evt;
               aggregateID := event.AggregateID evt |} ]
     else []) ++
    handleEvents Test c after /\
  (event.hasAggregate evt = false ->
     shouldDiscard Test evt (filter c) = true /\
     handleEvents Test c [evt] = []).
Proof.
  split.
  - rewrite handleEvents_app. simpl. rewrite shouldDiscard_eq.
    by destruct (event.hasAggregate evt && Test (filter c) evt).
  - intros Hno. simpl. rewrite shouldDiscard_eq, Hno. done.
Qed.

End continuous_schedule.

(** Scenario S4 of the specification, with a filter that keeps out the
    aggregate name ["ignored"]. *)
Example handleEvents_ignored :
  project.handleEvents sample.notIgnored
    {| project.filter := query.empty; project.events := ["granted"] |}
    [sample.granted "ignored"; sample.granted "order"; sample.note 4%N] =
  [ {| project.aggregateName := "order"; project.aggregateID := 7%N |} ].
Proof. reflexivity. Qed.

(** ** Graceful stop of a subscription *)

Section graceful_stop.

Import project.

Implicit Types (sub : subscription) (signals : list signal).

Lemma handleCancel_closed sub signals :
  fold_left (handleCancelStep sub) signals stopClosed = stopClosed.
Proof. induction signals as [|sig signals IH]; simpl; [done|]. by destruct sig. Qed.

(** From the second [select] on, the stop signal is closed by the end of
    the handler loop, or by the timer when there is one. *)
Lemma handleCancel_second_select sub timer signals :
  fold_left (handleCancelStep sub) signals (awaitHandleDone timer) = stopClosed
  <-> handleDone ∈ signals \/ (is_Some timer /\ timerFired ∈ signals).
Proof.
  induction signals as [|sig signals IH]; simpl.
  - split; [done|]. intros [H|[_ H]]; by apply elem_of_nil in H.
  - destruct sig; simpl.
    + rewrite handleCancel_closed. split; [|done]. intros _. left. by left.
    + rewrite IH, !elem_of_cons. intuition discriminate.
    + destruct timer as [d|]; simpl.
      * rewrite handleCancel_closed. split; [|done].
        intros _. right. split; [by eexists|by left].
      * rewrite IH. split.
        -- intros [H|[[? [=]] _]]. left. by right.
        -- intros [H|[[? [=]] _]]. left.
           apply elem_of_cons in H as [[=]|H]. done.
Qed.

(** C7 (amended).  When the parent context is canceled while the handler
    loop has not completed, [handleCancel] starts a timer of the
    configured [StopTimeout] when that is positive, and none otherwise.
    With a timer, the stop signal is closed as soon as the timer fires or
    the handler loop completes, whichever comes first.  Without one (no
    [StopTimeout] option), it is closed only when the handler loop
    completes. *)
Theorem handleCancel_after_parent_done sub signals :
  handleCancel sub [parentDone] =
    awaitHandleDone
      (if stopTimeout sub >? 0 then Some (stopTimeout sub) else None) /\
  (handleCancel sub (parentDone :: signals) = stopClosed <->
     handleDone ∈ signals \/ (0 < stopTimeout sub /\ timerFired ∈ signals)).
Proof.
  split; [done|].
  unfold handleCancel. simpl. rewrite handleCancel_second_select.
  destruct (Z.gtb_spec (stopTimeout sub) 0) as [Hd|Hd].
  - split; (intros [H|[_ H]]; [by left|right]).
    + split; [lia|done].
    + split; [by eexists|done].
  - split; (intros [H|[Ht H]]; [by left|]).
    + by destruct Ht.
    + lia.
Qed.

(** C7, as stated, fails: for a subscription without the [StopTimeout]
    option, the cancellation of the parent context does not close the
    stop signal; [handleCancel] stays in its second [select], whose
    [timeout] is the nil channel. *)
Lemma handleCancel_unset_keeps_waiting :
  stopTimeout (newSubscription []) = 0 /\
  handleCancel (newSubscription []) [parentDone] = awaitHandleDone None /\
  handleCancel (newSubscription []) [parentDone; timerFired; parentDone] =
    awaitHandleDone None /\
  handleCancel (newSubscription []) [parentDone; handleDone] = stopClosed.
Proof. repeat split; reflexivity. Qed.

Example handleCancel_timeout_fires :
  handleCancel (newSubscription [StopTimeout 500]) [parentDone; timerFired] =
    stopClosed.
Proof. reflexivity. Qed.

End graceful_stop.

(** ** Projection jobs *)

Section projection_job.

Import projection.

Context {S : Type} `{!Store S}.

Variable hashQuery : query.Query -> N.
Variable Merge : query.Query -> query.Query -> query.Query.
Variable After : stdtime.Time -> time.Option.
Variable Test : query.Query -> event.Event -> bool.

Implicit Types (c : queryCache S) (q : query.Query) (sel : list selected).

(** On a cache miss, [run] asks the store with the very query it is
    given, and hands its stream to [intercept]. *)
Lemma run_miss c q :
  cached c (hashQuery q) = None ->
  run hashQuery c q =
    (acquireQueryLock c (hashQuery q),
     match Query (store c) q with
     | inl err => inl (Errorf "query events" err)
     | inr str => inr (build (hashQuery q) str)
     end).
Proof.
  intros Hmiss. unfold run. rewrite Hmiss.
  replace (cached (acquireQueryLock c (hashQuery q)) (hashQuery q))
    with (@None (list event.Event)) by done.
  simpl. by destruct (Query (store c) q).
Qed.

Lemma run_hit c q events :
  cached c (hashQuery q) = Some events ->
  run hashQuery c q = (c, inr (replay events)).
Proof. intros Hhit. unfold run. by rewrite Hhit. Qed.

(** C4.  For a [ProgressAware] target with a non-zero progress time [p],
    [EventsFor] queries with the base query of the job merged with the
    query of the time constraint [After (p - 1ns)]; for a target that is
    not [ProgressAware], or whose progress is the zero time, it queries
    with the base query itself. *)
Theorem EventsFor_query (j : job) c sel (target : Target) :
  (forall p,
     Progress target = Some p -> p <> stdtime.zero ->
     EventsFor hashQuery Merge After Test j c sel target =
     queryEvents hashQuery Test j c sel
       (Merge (job_query j)
          (query.New
             [query.Time [After (stdtime.Add p (- stdtime.Nanosecond))]]))
       []) /\
  (Progress target = None \/ Progress target = Some stdtime.zero ->
     EventsFor hashQuery Merge After Test j c sel target =
     queryEvents hashQuery Test j c sel (job_query j) []).
Proof.
  unfold EventsFor, stdtime.IsZero.
  split.
  - intros p -> Hp. by rewrite bool_decide_eq_false_2.
  - intros [->| ->]; [done|]. by rewrite bool_decide_eq_true_2.
Qed.

Example EventsFor_progress_five (j : job) c sel :
  EventsFor hashQuery Merge After Test j c sel {| Progress := Some 5 |} =
  queryEvents hashQuery Test j c sel
    (Merge (job_query j) (query.New [query.Time [After 4]])) [].
Proof. reflexivity. Qed.

(** *** The query cache *)

Lemma interceptLoop_ending in_ : forall sel events,
  ((interceptLoop in_ sel events).2 = streamEnded ->
     (interceptLoop in_ sel events).1 = events ++ in_) /\
  (interceptLoop in_ sel events).1 `prefix_of` events ++ in_ /\
  ((interceptLoop in_ sel events).2 = canceled -> ctxDone ∈ sel).
Proof.
  induction in_ as [|evt in_ IH]; intros sel events.
  - destruct sel as [|[] sel]; simpl; rewrite ?app_nil_r;
      split_and!; try done; intros _; by left.
  - destruct sel as [|[] sel]; simpl.
    + specialize (IH [] (events ++ [evt])).
      rewrite <- app_assoc in IH. simpl in IH.
      destruct IH as (He & Hp & Hc). split_and!; done.
    + split_and!; try done.
      * by apply prefix_app_r.
      * intros _. by left.
    + destruct sel as [|[] sel]; simpl.
      * specialize (IH [] (events ++ [evt])).
        rewrite <- app_assoc in IH. simpl in IH.
        destruct IH as (He & Hp & Hc). split_and!; try done.
        intros Hcanceled. by apply Hc, elem_of_nil in Hcanceled.
      * split_and!; try done.
        -- by apply prefix_app_r.
        -- intros _. right. by left.
      * specialize (IH sel (events ++ [evt])).
        rewrite <- app_assoc in IH. simpl in IH.
        destruct IH as (He & Hp & Hc). split_and!; try done.
        intros Hcanceled. right. right. by apply Hc.
Qed.

Lemma eventStream_prefix events : forall sel,
  eventStream sel events `prefix_of` events /\
  (ctxDone ∉ sel -> eventStream sel events = events).
Proof.
  induction events as [|evt events IH]; intros sel; simpl; [done|].
  destruct sel as [|[] sel]; simpl.
  - destruct (IH []) as [Hp He]. split.
    + by apply prefix_cons.
    + intros Hn. by rewrite He.
  - split; [apply prefix_nil|]. intros Hn. destruct Hn. by left.
  - rewrite drop_0. destruct (IH sel) as [Hp He]. split.
    + by apply prefix_cons.
    + intros Hn. rewrite He; [done|]. intros Hin. apply Hn. by right.
Qed.

Lemma acquireQueryLock_again c h :
  acquireQueryLock (acquireQueryLock c h) h = acquireQueryLock c h.
Proof.
  unfold acquireQueryLock. simpl. f_equal.
  by rewrite (assoc_L (∪)), (idemp_L (∪)).
Qed.


(** C6 (amended).  Once the first execution of a query has committed its
    result, a later run of a query with the same fingerprint is a cache
    hit that leaves the cache as it is and replays the committed slice:
    the consumer receives a prefix of the sequence forwarded to the
    consumer of the first execution, in the same order, and the whole
    sequence when the replay takes the [ctx.Done()] case in none of its
    [select]s. *)
Theorem cached_replay_is_prefix c q sel c1 out errs q' sel' :
  cached c (hashQuery q) = None ->
  runToEnd hashQuery c sel q = (c1, inr (out, errs)) ->
  is_Some (cached c1 (hashQuery q)) ->
  hashQuery q' = hashQuery q ->
  cached c1 (hashQuery q) = Some out /\
  run hashQuery c1 q' = (c1, inr (replay out)) /\
  runToEnd hashQuery c1 sel' q' = (c1, inr (eventStream sel' out, [])) /\
  eventStream sel' out `prefix_of` out /\
  (ctxDone ∉ sel' -> eventStream sel' out = out).
Proof.
  intros Hmiss Hrun Hcommitted Hq'.
  assert (Hcached : cached c1 (hashQuery q) = Some out).
  { unfold runToEnd in Hrun. rewrite run_miss in Hrun by done.
    destruct (Query (store c) q) as [err|str]; [done|].
    unfold intercept in Hrun.
    destruct (interceptLoop (stream_events str) sel []) as [out1 []];
      simplify_eq.
    - unfold cached. simpl. by rewrite lookup_insert_eq.
    - destruct Hcommitted as [x Hx]. unfold cached in Hx, Hmiss.
      simpl in Hx. by rewrite Hmiss in Hx. }
  assert (Hhit : run hashQuery c1 q' = (c1, inr (replay out))).
  { apply run_hit. by rewrite Hq'. }
  destruct (eventStream_prefix out sel') as [Hp He].
  split_and!; try done.
  unfold runToEnd. by rewrite Hhit.
Qed.

End projection_job.


Lemma cached_replay_is_prefix_witness :
  projection.runToEnd sample.fingerprint sample.firstRun.1
    [projection.ctxDone] query.empty =
    (sample.firstRun.1,
     inr (projection.eventStream [projection.ctxDone] sample.fooEvents, [])).
Proof.
  apply (cached_replay_is_prefix sample.fingerprint
           sample.fooCache query.empty [] sample.firstRun.1
           sample.fooEvents [] query.empty [projection.ctxDone]);
    vm_compute; (reflexivity || by eexists).
Defined.

(** C6, as stated, fails: the first execution forwards the three events
    of the store and commits them; a later cache-hit run whose context
    is canceled after the first event yields that event only. *)
Lemma cached_replay_truncated :
  sample.firstRun.2 = inr (sample.fooEvents, []) /\
  projection.cached sample.firstRun.1 (sample.fingerprint query.empty) =
    Some sample.fooEvents /\
  (projection.runToEnd sample.fingerprint sample.firstRun.1
     [projection.proceed; projection.ctxDone] query.empty).2 =
    inr ([sample.foo 1%N 1], []) /\
  bool_decide ([sample.foo 1%N 1] = sample.fooEvents) = false.
Proof. repeat split; vm_compute; reflexivity. Qed.

(** A canceled build leaves no entry, and the next run asks the store
    again. *)
Example canceled_build_is_retried :
  projection.runToEnd sample.fingerprint sample.fooCache
    [projection.proceed; projection.proceed; projection.ctxDone] query.empty =
    (projection.acquireQueryLock sample.fooCache 0%N,
     inr ([sample.foo 1%N 1], [])) /\
  (projection.runToEnd sample.fingerprint
     (projection.acquireQueryLock sample.fooCache 0%N) [] query.empty).2 =
    inr (sample.fooEvents, []).
Proof. split; vm_compute; reflexivity. Qed.

(** ** Event store: atomicity, indexes and state records *)

Section mongo_store_invariants.

Import mongostore contract invariant.

Implicit Types (s : mongostore.Store) (events : list event.Event)
  (e : entry) (col : list entry).

Lemma entries_after_Insert s events :
  (Insert s events).2 = None ->
  entries (Insert s events).1 = entries s ++ (newEntry <$> events).
Proof.
  destruct (Insert_cases s events)
    as [(st & err & Hv & ->)|[(st & evt & err & Hv & Hall & ->)
                            |(st & s' & Hv & Hall & ->)]]; simpl; try done.
  intros _. rewrite updateState_entries.
  by apply insertAll_inr in Hall as [-> _].
Qed.

(** X1.  [Insert] is all or nothing: a failed call leaves the store as
    it was, and a successful call appends the documents of all the
    events, in their order, behind the documents stored before. *)
Theorem Insert_all_or_nothing s events :
  ((Insert s events).2 <> None -> (Insert s events).1 = s) /\
  ((Insert s events).2 = None ->
     entries (Insert s events).1 = entries s ++ (newEntry <$> events)).
Proof.
  split; [apply Insert_failed_unchanged|apply entries_after_Insert].
Qed.

Lemma FindOne_ReplaceOne_same states name id st :
  stateFilter name id st = true ->
  FindOne (ReplaceOne states name id st) name id = Some st.
Proof.
  intros Hst. unfold FindOne.
  induction states as [|doc states IH]; simpl.
  - by rewrite Hst.
  - destruct (stateFilter name id doc) eqn:Hdoc; simpl.
    + by rewrite Hst.
    + by rewrite Hdoc.
Qed.

Lemma FindOne_ReplaceOne_other states name id st name' id' :
  stateFilter name id st = true ->
  (name', id') <> (name, id) ->
  FindOne (ReplaceOne states name id st) name' id' = FindOne states name' id'.
Proof.
  intros Hst Hne. unfold FindOne.
  assert (Hother : forall doc,
    stateFilter name id doc = true -> stateFilter name' id' doc = false).
  { intros doc [Hn Hi]%andb_true_iff.
    apply bool_decide_eq_true in Hn, Hi.
    unfold stateFilter. rewrite Hn, Hi.
    destruct (decide (name = name')) as [<-|Hn'].
    - rewrite (bool_decide_eq_false_2 (id = id')); [by rewrite andb_false_r|].
      intros <-. by apply Hne.
    - by rewrite (bool_decide_eq_false_2 (name = name')). }
  induction states as [|doc states IH]; simpl.
  - by rewrite (Hother st Hst).
  - destruct (stateFilter name id doc) eqn:Hdoc; simpl.
    + by rewrite (Hother st Hst), (Hother doc Hdoc).
    + by rewrite IH.
Qed.

(** The state records after a successful [Insert] for an aggregate: the
    record of the aggregate is replaced, or added, with the version of
    the last event. *)
Lemma states_after_Insert s evt0 rest :
  event.hasAggregate evt0 = true ->
  (Insert s (evt0 :: rest)).2 = None ->
  exists evtN,
    last (evt0 :: rest) = Some evtN /\
    states (Insert s (evt0 :: rest)).1 =
      ReplaceOne (states s) (event.AggregateName evt0) (event.AggregateID evt0)
        {| state_AggregateName := event.AggregateName evt0;
           state_AggregageID := event.AggregateID evt0;
           state_Version := event.AggregateVersion evtN |}.
Proof.
  intros Hagg.
  destruct (Insert_cases s (evt0 :: rest))
    as [(st & err & Hv & ->)|[(st & evt & err & Hv & Hall & ->)
                            |(st & s' & Hv & Hall & ->)]]; simpl; try done.
  intros _.
  apply insertAll_inr in Hall as [_ Hstates].
  rewrite validateVersion_eq, Hagg in Hv. simpl in Hv.
  assert (Hname : state_AggregateName st = event.AggregateName evt0 /\
                  state_AggregageID st = event.AggregateID evt0).
  { assert (Hst : st = default
        {| state_AggregateName := event.AggregateName evt0;
           state_AggregageID := event.AggregateID evt0;
           state_Version := 0 |}
        (FindOne (states s) (event.AggregateName evt0)
           (event.AggregateID evt0))) by congruence.
    rewrite Hst. unfold FindOne.
    destruct (List.find _ _) as [found|] eqn:Hfind; simpl; [|done].
    apply List.find_some in Hfind as [_ [Hn Hi]%andb_true_iff].
    by apply bool_decide_eq_true in Hn, Hi. }
  destruct Hname as [Hn Hi].
  unfold event.hasAggregate in Hagg. apply negb_true_iff in Hagg.
  unfold updateState.
  destruct (last (evt0 :: rest)) as [evtN|] eqn:Hlast;
    [|by rewrite last_cons in Hlast; destruct (last rest)].
  exists evtN. split; [done|].
  rewrite Hn, Hi, Hagg. simpl. by rewrite Hstates.
Qed.

(** X2.  After a successful [Insert] whose first event carries an
    aggregate, the current version of that aggregate is the version of
    the last event of the call, and the current version of every other
    aggregate is what it was. *)
Theorem Insert_sets_current_version s evt0 rest :
  event.hasAggregate evt0 = true ->
  (Insert s (evt0 :: rest)).2 = None ->
  Some (currentVersion (Insert s (evt0 :: rest)).1
          (event.AggregateName evt0) (event.AggregateID evt0)) =
    event.AggregateVersion <$> last (evt0 :: rest) /\
  forall name id,
    (name, id) <> (event.AggregateName evt0, event.AggregateID evt0) ->
    currentVersion (Insert s (evt0 :: rest)).1 name id =
    currentVersion s name id.
Proof.
  intros Hagg Hok.
  destruct (states_after_Insert s evt0 rest Hagg Hok)
    as (evtN & Hlast & Hstates).
  unfold currentVersion. rewrite Hstates, Hlast. split.
  - rewrite FindOne_ReplaceOne_same; [done|].
    unfold stateFilter. simpl. by rewrite !bool_decide_eq_true_2.
  - intros name id Hne.
    rewrite FindOne_ReplaceOne_other; [done| |done].
    unfold stateFilter. simpl. by rewrite !bool_decide_eq_true_2.
Qed.

End mongo_store_invariants.

Lemma Insert_sets_current_version_witness :
  Some (contract.currentVersion
          (mongostore.Insert sample.emptyStore
             [sample.foo 1%N 1; sample.foo 2%N 2]).1 "foo" 7%N) =
    Some 2.
Proof.
  apply (proj1 (Insert_sets_current_version sample.emptyStore
                  (sample.foo 1%N 1) [sample.foo 2%N 2]
                  eq_refl eq_refl)).
Defined.

Section mongo_store_indexes.

Import mongostore contract invariant.

Implicit Types (s : mongostore.Store) (events : list event.Event)
  (e : entry) (col : list entry).

Lemma existsb_sameID_false col e :
  existsb (sameID e) col = false -> entry_ID e ∉ entry_ID <$> col.
Proof.
  intros Hex [x [Hid Hx]]%list_elem_of_fmap.
  apply not_true_iff_false in Hex. apply Hex, existsb_exists.
  exists x. split; [by apply list_elem_of_In|].
  unfold sameID. by rewrite bool_decide_eq_true_2.
Qed.

Lemma existsb_sameAggregateVersion_false col e :
  existsb (sameAggregateVersion e) col = false ->
  aggregateKey e ∉ aggregateKey <$> List.filter inAggregateIndex col.
Proof.
  intros Hex [x [Hkey Hx]]%list_elem_of_fmap.
  apply list_elem_of_In, filter_In in Hx as [Hx Hidx].
  apply not_true_iff_false in Hex. apply Hex, existsb_exists.
  exists x. split; [done|].
  unfold sameAggregateVersion. rewrite Hidx.
  unfold aggregateKey in Hkey. simplify_eq.
  by rewrite !bool_decide_eq_true_2.
Qed.

(** A write the indexes accept keeps them. *)
Lemma InsertOne_keeps_indexes col e col' :
  InsertOne col e = inr col' ->
  NoDup (entry_ID <$> col) ->
  NoDup (aggregateKey <$> List.filter inAggregateIndex col) ->
  NoDup (entry_ID <$> col') /\
  NoDup (aggregateKey <$> List.filter inAggregateIndex col').
Proof.
  unfold InsertOne.
  destruct (existsb (sameID e) col) eqn:Hid; [done|].
  destruct (inAggregateIndex e) eqn:Hidx; simpl.
  - destruct (existsb (sameAggregateVersion e) col) eqn:Hkey; [done|].
    intros [= <-] Hids Hkeys. split.
    + rewrite fmap_app. apply NoDup_app. split_and!; [done| |by apply NoDup_singleton].
      intros x Hx ->%list_elem_of_singleton.
      by apply existsb_sameID_false in Hid.
    + rewrite List.filter_app. simpl. rewrite Hidx, fmap_app.
      apply NoDup_app. split_and!; [done| |by apply NoDup_singleton].
      intros x Hx ->%list_elem_of_singleton.
      by apply existsb_sameAggregateVersion_false in Hkey.
  - intros [= <-] Hids Hkeys. split.
    + rewrite fmap_app. apply NoDup_app. split_and!; [done| |by apply NoDup_singleton].
      intros x Hx ->%list_elem_of_singleton.
      by apply existsb_sameID_false in Hid.
    + rewrite List.filter_app. simpl. by rewrite Hidx, app_nil_r.
Qed.

Lemma insertAll_keeps_indexes events : forall s s',
  insertAll s events = inr s' ->
  uniqueIDs s -> uniqueAggregateVersions s ->
  uniqueIDs s' /\ uniqueAggregateVersions s'.
Proof.
  induction events as [|evt events IH]; intros s s'; simpl.
  - by intros [= <-].
  - unfold insert.
    destruct (InsertOne (entries s) (newEntry evt)) as [err|col] eqn:Hone;
      [done|].
    intros Hall Hids Hkeys.
    eapply InsertOne_keeps_indexes in Hone as [Hids' Hkeys']; [|done..].
    by apply (IH _ _ Hall).
Qed.

Lemma indexes_after_Insert s events :
  uniqueIDs s -> uniqueAggregateVersions s ->
  uniqueIDs (Insert s events).1 /\
  uniqueAggregateVersions (Insert s events).1.
Proof.
  intros Hids Hkeys.
  destruct (Insert_cases s events)
    as [(st & err & Hv & ->)|[(st & evt & err & Hv & Hall & ->)
                            |(st & s' & Hv & Hall & ->)]]; simpl; try done.
  apply insertAll_keeps_indexes in Hall as [Hids' Hkeys']; [|done..].
  unfold uniqueIDs, uniqueAggregateVersions.
  by rewrite updateState_entries.
Qed.

Lemma decode_newEntry evt :
  entryEvent (newEntry evt) = evt <-> timeInRange evt.
Proof.
  unfold timeInRange, int_range.
  assert (Htime : stdtime.unixEpoch +
                  stdtime.UnixNano (event.Time evt) = event.Time evt
                  <-> - 2 ^ 63 <= event.Time evt - stdtime.unixEpoch < 2 ^ 63).
  { unfold stdtime.UnixNano, int_wrap.
    set (x := event.Time evt - stdtime.unixEpoch).
    pose proof (Z.mod_pos_bound (x + 2 ^ 63) (2 ^ 64) ltac:(lia)) as Hb.
    split.
    - intros Heq. lia.
    - intros Hr. rewrite Z.mod_small; lia. }
  rewrite <- Htime. destruct evt as [i n t d an ai av].
  unfold entryEvent, newEntry. simpl. split.
  - by intros [= ->].
  - intros ->. done.
Qed.

(** X3.  [Insert] keeps the unique indexes of the entries collection:
    when no two stored documents share an id, and no two documents with
    an aggregate share name, id and version, the same holds after the
    call, whatever its outcome. *)
Theorem Insert_keeps_indexes s events :
  uniqueIDs s -> uniqueAggregateVersions s ->
  uniqueIDs (Insert s events).1 /\
  uniqueAggregateVersions (Insert s events).1.
Proof. apply indexes_after_Insert. Qed.


End mongo_store_indexes.

Lemma Insert_keeps_indexes_witness :
  invariant.uniqueIDs sample.fooStore /\
  invariant.uniqueAggregateVersions sample.fooStore.
Proof.
  apply (Insert_keeps_indexes sample.emptyStore
           [sample.foo 1%N 1; sample.foo 2%N 2; sample.foo 3%N 3]);
    constructor.
Defined.

(** ** Event store: [Find] and [Delete] *)

Section mongo_find_delete.

Import mongostore contract invariant.

Implicit Types (s : mongostore.Store) (events : list event.Event)
  (e : entry) (col : list entry).

Lemma FindOneByID_unique col e :
  NoDup (entry_ID <$> col) -> e ∈ col ->
  FindOneByID col (entry_ID e) = Some e.
Proof.
  unfold FindOneByID.
  induction col as [|x col IH]; simpl; [by intros _ ?%elem_of_nil|].
  intros [Hx Hcol]%NoDup_cons [->|He]%elem_of_cons.
  - by rewrite bool_decide_eq_true_2.
  - rewrite bool_decide_eq_false_2; [by apply IH|].
    intros Heq. apply Hx. rewrite Heq. by apply list_elem_of_fmap_2.
Qed.

Lemma FindOneByID_None col id :
  FindOneByID col id = None <-> id ∉ entry_ID <$> col.
Proof.
  unfold FindOneByID. induction col as [|x col IH]; simpl.
  - split; [|done]. intros _ ?%elem_of_nil. done.
  - rewrite not_elem_of_cons. case_bool_decide as Hid.
    + split; [done|]. by intros [? _].
    + rewrite IH. split; [|by intros [_ ?]]. intros ?. split; [|done].
      intros ->. by apply Hid.
Qed.


Lemma FindOneByID_DeleteOne_other col id id' :
  id' <> id -> FindOneByID (DeleteOne col id) id' = FindOneByID col id'.
Proof.
  intros Hne. unfold FindOneByID.
  induction col as [|x col IH]; simpl; [done|].
  case_bool_decide as Hx; simpl.
  - rewrite bool_decide_eq_false_2; [done|]. congruence.
  - by rewrite IH.
Qed.

Lemma DeleteOne_unique col id :
  NoDup (entry_ID <$> col) ->
  DeleteOne col id =
  List.filter (fun e => negb (bool_decide (entry_ID e = id))) col.
Proof.
  induction col as [|x col IH]; simpl; [done|].
  intros [Hx Hcol]%NoDup_cons. case_bool_decide as Hid; simpl.
  - symmetry. apply forallb_filter_id, forallb_forall.
    intros y Hy. apply negb_true_iff, bool_decide_eq_false_2.
    intros Heq. apply Hx. rewrite Hid, <- Heq.
    by apply list_elem_of_fmap_2, list_elem_of_In.
  - by rewrite IH.
Qed.

Lemma DeleteOne_absent col id :
  id ∉ entry_ID <$> col -> DeleteOne col id = col.
Proof.
  induction col as [|x col IH]; simpl; [done|].
  rewrite not_elem_of_cons. intros [Hx Hcol].
  rewrite bool_decide_eq_false_2 by done. by rewrite IH.
Qed.

Lemma DeleteOne_sublist col id : sublist (DeleteOne col id) col.
Proof.
  induction col as [|x col IH]; simpl; [done|].
  case_bool_decide; [by apply sublist_cons|by apply sublist_skip].
Qed.

(** X6.  [Delete] removes the event by its id and nothing else: with
    unique ids stored, the event is no longer found, every other id is
    found as before, the state records are untouched, the ids stay
    unique, and deleting the event once more changes nothing and is no
    error. *)
Theorem Delete_removes_by_id s evt :
  uniqueIDs s ->
  FindEvent (Delete s evt).1 (event.ID evt) = None /\
  (forall id, id <> event.ID evt ->
     FindEvent (Delete s evt).1 id = FindEvent s id) /\
  states (Delete s evt).1 = states s /\
  uniqueIDs (Delete s evt).1 /\
  Delete (Delete s evt).1 evt = ((Delete s evt).1, None).
Proof.
  intros Hids. unfold uniqueIDs, FindEvent, Delete in *. simpl.
  assert (Hgone : event.ID evt ∉ entry_ID <$> DeleteOne (entries s) (event.ID evt)).
  { rewrite DeleteOne_unique by done.
    intros [x [Hid Hx]]%list_elem_of_fmap.
    apply list_elem_of_In, filter_In in Hx as [_ Hx].
    apply negb_true_iff, bool_decide_eq_false in Hx. by apply Hx. }
  split_and!.
  - by rewrite (proj2 (FindOneByID_None _ _) Hgone).
  - intros id Hne. by rewrite FindOneByID_DeleteOne_other.
  - done.
  - eapply sublist_NoDup; [done|].
    apply fmap_sublist, DeleteOne_sublist.
  - by rewrite DeleteOne_absent.
Qed.

(** X7.  [Delete] never touches the state record of an aggregate: once
    an event with an aggregate has been inserted and deleted again, the
    store still refuses to insert it with a [*VersionError]. *)
Theorem Delete_keeps_current_version s evt :
  event.hasAggregate evt = true ->
  (Insert s [evt]).2 = None ->
  isVersionError (Insert (Delete (Insert s [evt]).1 evt).1 [evt]).2 = true /\
  currentVersion (Delete (Insert s [evt]).1 evt).1
    (event.AggregateName evt) (event.AggregateID evt) =
    event.AggregateVersion evt.
Proof.
  intros Hagg Hok.
  destruct (states_after_Insert s evt [] Hagg Hok)
    as (evtN & [= <-] & Hstates).
  assert (Hcur' : currentVersion (Delete (Insert s [evt]).1 evt).1
            (event.AggregateName evt) (event.AggregateID evt) =
          event.AggregateVersion evt).
  { unfold currentVersion, Delete. cbn [fst states]. rewrite Hstates.
    rewrite FindOne_ReplaceOne_same; [done|].
    unfold stateFilter. simpl. by rewrite !bool_decide_eq_true_2. }
  split; [|done].
  rewrite Insert_isVersionError. unfold staleFirstEvent.
  rewrite Hagg, Hcur'. simpl. by apply Z.leb_le.
Qed.

End mongo_find_delete.


Lemma Delete_removes_by_id_witness :
  mongostore.FindEvent
    (mongostore.Delete sample.fooStore (sample.foo 2%N 2)).1 2%N = None.
Proof.
  apply (Delete_removes_by_id sample.fooStore (sample.foo 2%N 2)).
  apply (bool_decide_unpack _). by vm_compute.
Defined.

Lemma Delete_keeps_current_version_witness :
  isVersionError
    (mongostore.Insert
       (mongostore.Delete
          (mongostore.Insert sample.emptyStore [sample.foo 1%N 1]).1
          (sample.foo 1%N 1)).1
       [sample.foo 1%N 1]).2 = true.
Proof.
  apply (Delete_keeps_current_version sample.emptyStore (sample.foo 1%N 1));
    reflexivity.
Defined.

(** ** Event store: [Query] *)

Section mongo_query.

Import mongostore contract invariant.

Implicit Types (s : mongostore.Store) (q : query.Query) (e : entry)
  (filter : D).

Lemma compareValues_antisym (a b : value) :
  default Eq (compareValues a b) = CompOpp (default Eq (compareValues b a)).
Proof.
  destruct a, b; simpl; try done.
  - apply String.compare_antisym.
  - apply N.compare_antisym.
  - apply Z.compare_antisym.
  - apply Z.compare_antisym.
Qed.

Lemma compareField_antisym key (a b : entry) :
  compareField key a b = CompOpp (compareField key b a).
Proof.
  unfold compareField.
  destruct (field a key), (field b key); simpl; try done.
  apply compareValues_antisym.
Qed.

Lemma compareEntries_antisym sorts (a b : entry) :
  compareEntries sorts a b = CompOpp (compareEntries sorts b a).
Proof.
  induction sorts as [|[key v] sorts IH]; simpl; [done|].
  rewrite (compareField_antisym key a b).
  destruct (compareField key b a); simpl; [done|..];
    by destruct (v =? 1).
Qed.

(** Whatever the sort document, two documents are ordered one way or the
    other. *)
Lemma sortedBefore_total sorts : Total (sortedBefore sorts).
Proof.
  intros a b. unfold sortedBefore.
  rewrite (compareEntries_antisym sorts b a).
  destruct (compareEntries sorts a b); simpl; [left|left|right]; done.
Qed.


Lemma matches_app filter1 filter2 e :
  matches (filter1 ++ filter2) e = matches filter1 e && matches filter2 e.
Proof. apply forallb_app. Qed.

Lemma compareValues_string_eq (x y : string) :
  compareValues (VString x) (VString y) = Some Eq <-> x = y.
Proof.
  simpl. split.
  - intros [= Hc]. by apply String.compare_eq_iff.
  - intros ->. f_equal. apply string_compare_refl.
Qed.

Lemma compareValues_uuid_eq (x y : uuid.UUID) :
  compareValues (VUUID x) (VUUID y) = Some Eq <-> x = y.
Proof.
  simpl. split.
  - intros [= Hc]. by apply N.compare_eq_iff.
  - intros ->. f_equal. apply N.compare_refl.
Qed.

Lemma compareValues_int_eq (x y : Z) :
  compareValues (VInt x) (VInt y) = Some Eq <-> x = y.
Proof.
  simpl. split.
  - intros [= Hc]. by apply Z.compare_eq_iff.
  - intros ->. f_equal. apply Z.compare_refl.
Qed.

(** An [$in] over the values of a list holds when the value of the
    document is in the list. *)
Lemma holds_in_list {A : Type} `{EqDecision A} (inject : A -> value) x
    (l : list A) :
  (forall y, compareValues (inject x) (inject y) = Some Eq <-> x = y) ->
  holds (inject x) (op_in (inject <$> l)) = bool_decide (x ∈ l).
Proof.
  intros Heq. cbn [holds].
  induction l as [|y l IH]; [done|].
  rewrite fmap_cons. cbn [existsb]. rewrite IH.
  apply eq_true_iff_eq.
  rewrite orb_true_iff, !bool_decide_eq_true, elem_of_cons, Heq. done.
Qed.

Lemma field_name e : field e "name" = Some (VString (entry_Name e)).
Proof. reflexivity. Qed.

Lemma field_id e : field e "id" = Some (VUUID (entry_ID e)).
Proof. reflexivity. Qed.

Lemma field_timeNano e : field e "timeNano" = Some (VInt (entry_TimeNano e)).
Proof. reflexivity. Qed.

Lemma existsb_fmap {A B : Type} (f : B -> bool) (g : A -> B) (l : list A) :
  existsb f (g <$> l) = existsb (fun x => f (g x)) l.
Proof. induction l as [|x l IH]; csimpl; [done|]. by rewrite IH. Qed.

Lemma existsb_pointwise {A : Type} (f g : A -> bool) (l : list A) :
  (forall x, f x = g x) -> existsb f l = existsb g l.
Proof.
  intros Hfg. induction l as [|x l IH]; simpl; [done|]. by rewrite Hfg, IH.
Qed.

Lemma matches_element filter el e :
  matches (filter ++ [el]) e = matches filter e && matchesElement e el.
Proof. rewrite matches_app. unfold matches at 2. simpl. by rewrite andb_true_r. Qed.

Lemma matches_if (b : bool) filter el e :
  matches (if b then filter else filter ++ [el]) e =
  matches filter e && (b || matchesElement e el).
Proof.
  destruct b; simpl; [by rewrite andb_true_r|]. apply matches_element.
Qed.

Lemma matchesElement_in {A : Type} `{EqDecision A} (inject : A -> value)
    (get : entry -> A) key (l : list A) e :
  field e key = Some (inject (get e)) ->
  (forall x y, compareValues (inject x) (inject y) = Some Eq <-> x = y) ->
  matchesElement e (E key [op_in (inject <$> l)]) = bool_decide (get e ∈ l).
Proof.
  intros Hfield Heq.
  unfold matchesElement, matchesField, fst, snd.
  rewrite Hfield. cbn [forallb].
  rewrite (holds_in_list inject) by (intros ?; apply Heq).
  apply andb_true_r.
Qed.

Lemma matchesElement_or {B : Type} (bound : B -> list operator)
    (check : B -> Z -> bool) (l : list B) e :
  (forall b, forallb (holds (VInt (entry_AggregateVersion e))) (bound b) =
             check b (entry_AggregateVersion e)) ->
  matchesElement e (E_or ((fun b => ("aggregateVersion", bound b)) <$> l)) =
  existsb (fun b => check b (entry_AggregateVersion e)) l.
Proof.
  intros Hbound. unfold matchesElement. rewrite existsb_fmap.
  apply existsb_pointwise. intros b.
  unfold matchesField, fst, snd. by rewrite field_aggregateVersion.
Qed.

Lemma matches_withNameFilter filter names e :
  matches (withNameFilter filter names) e =
  matches filter e && memberOrAny (entry_Name e) names.
Proof.
  destruct names as [|n names]; [by rewrite andb_true_r|].
  unfold withNameFilter. rewrite matches_element. f_equal.
  apply (matchesElement_in VString entry_Name);
    [apply field_name|apply compareValues_string_eq].
Qed.

Lemma matches_withIDFilter filter ids e :
  matches (withIDFilter filter ids) e =
  matches filter e && memberOrAny (entry_ID e) ids.
Proof.
  destruct ids as [|i ids]; [by rewrite andb_true_r|].
  unfold withIDFilter. rewrite matches_element. f_equal.
  apply (matchesElement_in VUUID entry_ID);
    [apply field_id|apply compareValues_uuid_eq].
Qed.

Lemma matches_withAggregateNameFilter filter names e :
  matches (withAggregateNameFilter filter names) e =
  matches filter e && memberOrAny (entry_AggregateName e) names.
Proof.
  destruct names as [|n names]; [by rewrite andb_true_r|].
  unfold withAggregateNameFilter. rewrite matches_element. f_equal.
  apply (matchesElement_in VString entry_AggregateName);
    [apply field_aggregateName|apply compareValues_string_eq].
Qed.

Lemma matches_withAggregateIDFilter filter ids e :
  matches (withAggregateIDFilter filter ids) e =
  matches filter e && memberOrAny (entry_AggregateID e) ids.
Proof.
  destruct ids as [|i ids]; [by rewrite andb_true_r|].
  unfold withAggregateIDFilter. rewrite matches_element. f_equal.
  apply (matchesElement_in VUUID entry_AggregateID);
    [apply field_aggregateId|apply compareValues_uuid_eq].
Qed.

Lemma matches_withAggregateVersionFilter filter
    (versions : version.Constraints) e :
  matches (withAggregateVersionFilter filter versions) e =
  matches filter e &&
  memberOrAny (entry_AggregateVersion e) (version.Exact versions) &&
  someOrAny (fun lo => lo <=? entry_AggregateVersion e)
    (version.Min versions) &&
  someOrAny (fun hi => entry_AggregateVersion e <=? hi)
    (version.Max versions) &&
  someOrAny (fun r : Z * Z =>
               (r.1 <=? entry_AggregateVersion e) &&
               (entry_AggregateVersion e <=? r.2))
    (version.Ranges versions).
Proof.
  unfold withAggregateVersionFilter. cbv zeta.
  assert (Hranges : forall rs : list (Z * Z),
    matchesElement e
      (E_or ((fun r : Z * Z =>
                ("aggregateVersion",
                 [op_gte (VInt r.1); op_lte (VInt r.2)])) <$> rs)) =
    existsb (fun r : Z * Z =>
               (r.1 <=? entry_AggregateVersion e) &&
               (entry_AggregateVersion e <=? r.2)) rs).
  { intros rs.
    apply (matchesElement_or
             (fun r : Z * Z => [op_gte (VInt r.1); op_lte (VInt r.2)])
             (fun r v => (r.1 <=? v) && (v <=? r.2))).
    intros r. cbn [forallb].
    by rewrite holds_gte_int, holds_lte_int, andb_true_r. }
  assert (Hmax : forall his : list Z,
    matchesElement e
      (E_or ((fun hi => ("aggregateVersion", [op_lte (VInt hi)])) <$> his)) =
    existsb (fun hi => entry_AggregateVersion e <=? hi) his).
  { intros his.
    apply (matchesElement_or (fun hi => [op_lte (VInt hi)])
             (fun hi v => v <=? hi)).
    intros hi. cbn [forallb]. by rewrite holds_lte_int, andb_true_r. }
  assert (Hmin : forall los : list Z,
    matchesElement e
      (E_or ((fun lo => ("aggregateVersion", [op_gte (VInt lo)])) <$> los)) =
    existsb (fun lo => lo <=? entry_AggregateVersion e) los).
  { intros los.
    apply (matchesElement_or (fun lo => [op_gte (VInt lo)])
             (fun lo v => lo <=? v)).
    intros lo. cbn [forallb]. by rewrite holds_gte_int, andb_true_r. }
  assert (Hexact : forall vs : list Z,
    matchesElement e (E "aggregateVersion" [op_in (VInt <$> vs)]) =
    bool_decide (entry_AggregateVersion e ∈ vs)).
  { intros vs.
    apply (matchesElement_in VInt entry_AggregateVersion);
      [apply field_aggregateVersion|apply compareValues_int_eq]. }
  destruct (version.Ranges versions) as [|r rs];
    destruct (version.Max versions) as [|hi his];
    destruct (version.Min versions) as [|lo los];
    destruct (version.Exact versions) as [|v vs];
    cbv beta iota;
    rewrite ?matches_element, ?Hranges, ?Hmax, ?Hmin, ?Hexact;
    unfold memberOrAny, someOrAny; by rewrite ?andb_true_r.
Qed.

Lemma matches_withTimeFilter filter (times : time.Constraints) e :
  time.Ranges times = [] ->
  matches (withTimeFilter filter times) e =
  matches filter e &&
  memberOrAny (entry_TimeNano e) (stdtime.UnixNano <$> time.Exact times) &&
  (stdtime.IsZero (time.Min times) ||
   (stdtime.UnixNano (time.Min times) <=? entry_TimeNano e)) &&
  (stdtime.IsZero (time.Max times) ||
   (entry_TimeNano e <=? stdtime.UnixNano (time.Max times))).
Proof.
  intros Hranges. unfold withTimeFilter. rewrite Hranges.
  cbv beta iota zeta.
  rewrite !matches_if.
  unfold matchesElement at 1 2. unfold matchesField, fst, snd.
  rewrite field_timeNano. cbn [forallb].
  rewrite holds_gte_int, holds_lte_int, !andb_true_r.
  do 2 f_equal.
  destruct (time.Exact times) as [|t ts]; [by rewrite andb_true_r|].
  rewrite matches_element. f_equal.
  unfold matchesElement, matchesField, fst, snd, nanoTimes.
  rewrite field_timeNano. cbn [forallb].
  rewrite (holds_in_list VInt) by apply compareValues_int_eq.
  apply andb_true_r.
Qed.

Lemma makeFilter_selects q e :
  time.Ranges (query.Times q) = [] ->
  matches (makeFilter q) e = selects q e.
Proof.
  intros Hranges. unfold makeFilter, selects. cbv zeta.
  rewrite matches_withAggregateVersionFilter, matches_withAggregateIDFilter,
    matches_withAggregateNameFilter, matches_withTimeFilter,
    matches_withIDFilter, matches_withNameFilter by done.
  done.
Qed.

(** X9.  The filter [makeFilter] builds for a query without time ranges
    selects a document exactly when every constraint list of the query
    that is not empty is met: names, ids, exact times, the inclusive
    minimum and maximum time, aggregate names, aggregate ids and exact
    versions by membership, and the version minima, maxima and ranges
    each by some one of the listed bounds. *)
Theorem matches_makeFilter q e :
  time.Ranges (query.Times q) = [] ->
  matches (makeFilter q) e = selects q e.
Proof. apply makeFilter_selects. Qed.

End mongo_query.

Lemma matches_makeFilter_witness :
  mongostore.matches
    (mongostore.makeFilter
       (repository.fetchQuery sample.fooAggregate
          [query.AggregateVersion [version.WithMin [2]]]))
    (mongostore.newEntry (sample.foo 3%N 3)) =
  invariant.selects
    (repository.fetchQuery sample.fooAggregate
       [query.AggregateVersion [version.WithMin [2]]])
    (mongostore.newEntry (sample.foo 3%N 3)).
Proof.
  apply (matches_makeFilter
           (repository.fetchQuery sample.fooAggregate
              [query.AggregateVersion [version.WithMin [2]]])
           (mongostore.newEntry (sample.foo 3%N 3))).
  reflexivity.
Defined.

(** ** Aggregate repository over the MongoDB store: [Fetch] and [Save] *)

Section repository_mongo_fetch.

Import mongostore contract invariant.

Implicit Types (s : mongostore.Store) (a : aggregate.Aggregate) (e : entry).

(** The version option [Fetch] passes to [fetch]. *)
Local Abbreviation from lo := [ query.AggregateVersion [version.WithMin [lo]] ].

Lemma fetch_mongo_found s a (opts : list version.Option) :
  repository.fetch s a [query.AggregateVersion opts] =
  (fold_left aggregate.applyHistoryEvent
     (entryEvent <$>
        Find (entries s)
          (makeFilter (repository.fetchQuery a [query.AggregateVersion opts]))
          [("aggregateVersion", 1)])
     a,
   None).
Proof. reflexivity. Qed.

Lemma matches_fetchQuery_from a lo e :
  matches (makeFilter (repository.fetchQuery a (from lo))) e =
  ofAggregateFrom (aggregate.AggregateName a) (aggregate.AggregateID a) lo e.
Proof.
  rewrite makeFilter_selects by reflexivity.
  unfold selects, ofAggregateFrom, ofAggregate. simpl.
  rewrite !andb_true_r, orb_false_r.
  f_equal. f_equal.
  - apply bool_decide_ext. rewrite list_elem_of_singleton. done.
  - apply bool_decide_ext. rewrite list_elem_of_singleton. done.
Qed.

Lemma Find_version_sorted col filter :
  StronglySorted (sortedBefore [("aggregateVersion", 1)])
    (Find col filter [("aggregateVersion", 1)]).
Proof.
  apply Sorted_StronglySorted; [apply sortedBefore_version_trans|].
  apply sortEntries_Sorted, sortedBefore_version_total.
Qed.

Lemma versionOrder_decoded (found : list entry) :
  StronglySorted (sortedBefore [("aggregateVersion", 1)]) found ->
  StronglySorted versionOrder (entryEvent <$> found).
Proof.
  apply StronglySorted_fmap. intros e1 e2 H12. by apply sortedBefore_version.
Qed.


(** What is found from [lo] on has the aggregate of the query and a
    version of at least [lo]. *)
Lemma Find_from_elem_of s a lo e :
  e ∈ Find (entries s) (makeFilter (repository.fetchQuery a (from lo)))
        [("aggregateVersion", 1)]
  <-> e ∈ entries s /\
      ofAggregateFrom (aggregate.AggregateName a) (aggregate.AggregateID a)
        lo e = true.
Proof.
  unfold Find. rewrite sortEntries_Permutation.
  rewrite list_elem_of_In, filter_In, <- list_elem_of_In.
  by rewrite matches_fetchQuery_from.
Qed.

Lemma fetchQuery_same_aggregate a a' opts :
  aggregate.AggregateName a' = aggregate.AggregateName a ->
  aggregate.AggregateID a' = aggregate.AggregateID a ->
  repository.fetchQuery a' opts = repository.fetchQuery a opts.
Proof. unfold repository.fetchQuery. by intros -> ->. Qed.

Lemma sortEntries_filter_nil sorts (f : entry -> bool) col :
  (forall e, e ∈ col -> f e = false) ->
  sortEntries sorts (List.filter f col) = [].
Proof.
  intros Hnone. replace (List.filter f col) with (@nil entry); [done|].
  symmetry. induction col as [|x col IH]; simpl; [done|].
  rewrite (Hnone x) by (by left). apply IH.
  intros e He. apply Hnone. by right.
Qed.


End repository_mongo_fetch.


(** ** Aggregate repository over the MongoDB store: [Delete] *)

Lemma Query_mongostore (s : mongostore.Store) (q : query.Query) :
  Query s q = mongostore.Query s q.
Proof. reflexivity. Qed.

Section repository_mongo_delete.

Import mongostore contract invariant.

Implicit Types (s : mongostore.Store) (a b : aggregate.Aggregate)
  (e : entry) (col : list entry).

Lemma deleteEach_mongo events : forall s,
  repository.deleteEach s events =
  ({| entries := fold_left DeleteOne (event.ID <$> events) (entries s);
      states := states s |},
   None).
Proof.
  induction events as [|evt events IH]; intros s; simpl.
  - by destruct s.
  - by rewrite IH.
Qed.

Lemma filter_filter_andb {A : Type} (f g h : A -> bool) (l : list A) :
  (forall x, h x = f x && g x) ->
  List.filter g (List.filter f l) = List.filter h l.
Proof.
  intros Hh. induction l as [|x l IH]; simpl; [done|].
  rewrite Hh. destruct (f x); simpl; [|done].
  destruct (g x); by rewrite IH.
Qed.

Lemma fold_DeleteOne_unique ids : forall col,
  NoDup (entry_ID <$> col) ->
  fold_left DeleteOne ids col =
  List.filter (fun e => negb (bool_decide (entry_ID e ∈ ids))) col.
Proof.
  induction ids as [|id ids IH]; intros col Hcol; cbn [fold_left].
  - symmetry. apply forallb_filter_id, forallb_forall. intros x _.
    apply negb_true_iff, bool_decide_eq_false_2, not_elem_of_nil.
  - rewrite IH.
    + rewrite DeleteOne_unique by done. apply filter_filter_andb.
      intros x. rewrite <- negb_orb, <- bool_decide_or. f_equal.
      apply bool_decide_ext, elem_of_cons.
    + eapply sublist_NoDup; [done|].
      apply fmap_sublist, DeleteOne_sublist.
Qed.

Lemma NoDup_fmap_inj_on {A B : Type} (f : A -> B) (l : list A) x y :
  NoDup (f <$> l) -> x ∈ l -> y ∈ l -> f x = f y -> x = y.
Proof.
  induction l as [|z l IH]; [by intros _ ?%elem_of_nil|].
  rewrite fmap_cons.
  intros [Hz Hl]%NoDup_cons [Hx|Hx]%elem_of_cons [Hy|Hy]%elem_of_cons Heq.
  - congruence.
  - exfalso. apply Hz. rewrite <- Hx, Heq. by apply list_elem_of_fmap_2.
  - exfalso. apply Hz. rewrite <- Hy, <- Heq. by apply list_elem_of_fmap_2.
  - by apply IH.
Qed.

Lemma matches_deleteQuery a e :
  matches (makeFilter (repository.deleteQuery a)) e =
  ofAggregate (aggregate.AggregateName a) (aggregate.AggregateID a) e.
Proof.
  rewrite makeFilter_selects by reflexivity.
  unfold selects, ofAggregate. simpl.
  rewrite !andb_true_r.
  f_equal.
  - apply bool_decide_ext. rewrite list_elem_of_singleton. done.
  - apply bool_decide_ext. rewrite list_elem_of_singleton. done.
Qed.

Lemma Delete_mongo s a :
  uniqueIDs s ->
  repository.Delete s a =
  ({| entries :=
        List.filter
          (fun e => negb (ofAggregate (aggregate.AggregateName a)
                            (aggregate.AggregateID a) e))
          (entries s);
      states := states s |},
   None).
Proof.
  intros Hids. unfold uniqueIDs in Hids.
  unfold repository.Delete. rewrite Query_mongostore.
  unfold mongostore.Query. cbn [stream_events stream_err].
  rewrite deleteEach_mongo. f_equal. f_equal.
  rewrite <- list_fmap_compose.
  change (applySortings (query.Sortings (repository.deleteQuery a)))
    with (@nil (string * Z)).
  unfold Find. rewrite sortEntries_nil.
  rewrite fold_DeleteOne_unique by done.
  apply filter_ext_in. intros e He%list_elem_of_In. f_equal.
  rewrite <- matches_deleteQuery.
  destruct (matches (makeFilter (repository.deleteQuery a)) e) eqn:Hm.
  - apply bool_decide_eq_true_2.
    apply (list_elem_of_fmap_2' _ _ e); [|done].
    apply list_elem_of_In, filter_In. split; [by apply list_elem_of_In|done].
  - apply bool_decide_eq_false_2.
    intros [e' [Hid He']]%list_elem_of_fmap.
    apply list_elem_of_In, filter_In in He' as [He'%list_elem_of_In Hm'].
    simpl in Hid.
    assert (e = e') by (by eapply (NoDup_fmap_inj_on entry_ID)).
    congruence.
Qed.



End repository_mongo_delete.



(** ** Aggregate repository over the MongoDB store: [Save], then [Fetch] *)

Lemma Insert_mongostore (s : mongostore.Store) (events : list event.Event) :
  Insert s events = mongostore.Insert s events.
Proof. reflexivity. Qed.

Section repository_mongo_save.

Import mongostore contract invariant.

Implicit Types (s : mongostore.Store) (a b : aggregate.Aggregate)
  (e : entry) (col : list entry) (events : list event.Event).

(** The key of the document of an event in the index
    [goes_aggregate]. *)
Local Abbreviation keyOf := (fun evt => aggregateKey (newEntry evt)).

(** Writes that no index refuses all go through. *)
Lemma insertAll_fresh events : forall s,
  NoDup (event.ID <$> events) ->
  (forall evt, evt ∈ events -> event.ID evt ∉ entry_ID <$> entries s) ->
  NoDup (keyOf <$> events) ->
  (forall evt, evt ∈ events ->
     keyOf evt ∉ aggregateKey <$> List.filter inAggregateIndex (entries s)) ->
  insertAll s events =
    inr {| entries := entries s ++ (newEntry <$> events);
           states := states s |}.
Proof.
  induction events as [|evt events IH]; intros s Hids Hold Hkeys Holdkeys.
  - simpl. rewrite app_nil_r. by destruct s.
  - rewrite fmap_cons in Hids. rewrite fmap_cons in Hkeys.
    apply NoDup_cons in Hids as [Hid Hids].
    apply NoDup_cons in Hkeys as [Hkey Hkeys].
    cbn [insertAll]. unfold insert, InsertOne.
    destruct (existsb (sameID (newEntry evt)) (entries s)) eqn:HsameID.
    { exfalso. apply existsb_exists in HsameID as (x & Hx & Hsame).
      apply bool_decide_eq_true in Hsame.
      apply (Hold evt); [by left|]. simpl in Hsame. rewrite <- Hsame.
      by apply list_elem_of_fmap_2, list_elem_of_In. }
    destruct (inAggregateIndex (newEntry evt) &&
              existsb (sameAggregateVersion (newEntry evt)) (entries s))
      eqn:HsameKey.
    { exfalso. apply andb_true_iff in HsameKey as [_ HsameKey].
      apply existsb_exists in HsameKey as (x & Hx & Hsame).
      unfold sameAggregateVersion in Hsame.
      apply andb_true_iff in Hsame as [Hsame Hv%bool_decide_eq_true].
      apply andb_true_iff in Hsame as [Hsame Hi%bool_decide_eq_true].
      apply andb_true_iff in Hsame as [Hidx Hn%bool_decide_eq_true].
      apply (Holdkeys evt); [by left|].
      apply (list_elem_of_fmap_2' _ _ x).
      - apply list_elem_of_In, filter_In. by split.
      - unfold aggregateKey. by rewrite Hn, Hi, Hv. }
    rewrite IH; cbn [entries states].
    + by rewrite <- app_assoc.
    + done.
    + intros evt' Hevt'. rewrite fmap_app, not_elem_of_app. split.
      * apply Hold. by right.
      * simpl. rewrite list_elem_of_singleton. intros Heq.
        apply Hid. rewrite <- Heq. by apply list_elem_of_fmap_2.
    + done.
    + intros evt' Hevt'. rewrite List.filter_app, fmap_app, not_elem_of_app.
      split.
      * apply Holdkeys. by right.
      * simpl. destruct (inAggregateIndex (newEntry evt));
          [|apply not_elem_of_nil].
        simpl. rewrite list_elem_of_singleton. intros Heq.
        apply Hkey. fold (keyOf evt). rewrite <- Heq.
        by apply (list_elem_of_fmap_2 keyOf).
Qed.

(** What a contiguous sequence of versions gives. *)
Lemma sequenceFrom_Forall name id events : forall k,
  sequenceFrom name id k events = true ->
  Forall (fun evt => event.AggregateName evt = name /\
                     event.AggregateID evt = id /\
                     k <= event.AggregateVersion evt) events.
Proof.
  induction events as [|evt events IH]; intros k; simpl; [by constructor|].
  intros [[[Hn%bool_decide_eq_true Hi%bool_decide_eq_true]%andb_true_iff
            Hv%bool_decide_eq_true]%andb_true_iff Hrest]%andb_true_iff.
  constructor; [split_and!; [done..|lia]|].
  eapply Forall_impl; [by apply IH|].
  intros evt' (? & ? & ?). split_and!; [done..|lia].
Qed.

Lemma sequenceFrom_increasing name id events : forall k,
  sequenceFrom name id k events = true ->
  StronglySorted
    (fun x y => event.AggregateVersion x < event.AggregateVersion y) events.
Proof.
  induction events as [|evt events IH]; intros k; simpl; [by constructor|].
  intros [[_ Hv%bool_decide_eq_true]%andb_true_iff Hrest]%andb_true_iff.
  constructor; [by eapply IH|].
  eapply Forall_impl; [by eapply sequenceFrom_Forall|].
  intros evt' (_ & _ & ?). simpl in *. lia.
Qed.

Lemma increasing_keys events :
  StronglySorted
    (fun x y => event.AggregateVersion x < event.AggregateVersion y) events ->
  NoDup (keyOf <$> events).
Proof.
  induction 1 as [|evt events Hsorted IH Hhd]; [constructor|].
  rewrite fmap_cons. apply NoDup_cons. split; [|done].
  intros [evt' [Heq Hevt']]%list_elem_of_fmap.
  rewrite Forall_forall in Hhd. specialize (Hhd evt' Hevt').
  unfold aggregateKey in Heq. simpl in Heq. injection Heq as _ _ Heq. lia.
Qed.

(** A list in the order of its sort document is returned as it is. *)
Lemma sortEntries_sorted sorts col :
  Sorted (sortedBefore sorts) col -> sortEntries sorts col = col.
Proof.
  induction 1 as [|x col Hsorted IH Hhd]; [done|].
  cbn [sortEntries foldr]. fold (sortEntries sorts col). rewrite IH.
  destruct Hhd as [|y col Hxy]; [done|].
  simpl. by rewrite decide_True.
Qed.

Lemma increasing_sorted events :
  StronglySorted
    (fun x y => event.AggregateVersion x < event.AggregateVersion y) events ->
  Sorted (sortedBefore [("aggregateVersion", 1)]) (newEntry <$> events).
Proof.
  intros Hinc. apply StronglySorted_Sorted.
  eapply StronglySorted_fmap; [|exact Hinc].
  intros x y Hxy. apply sortedBefore_version. simpl in *. lia.
Qed.

Lemma filter_all {A : Type} (f : A -> bool) (l : list A) :
  Forall (fun x => f x = true) l -> List.filter f l = l.
Proof.
  intros Hall. apply forallb_filter_id, forallb_forall.
  intros x Hx%list_elem_of_In. by apply (proj1 (Forall_forall _ _) Hall).
Qed.

Lemma filter_none {A : Type} (f : A -> bool) (l : list A) :
  Forall (fun x => f x = false) l -> List.filter f l = [].
Proof.
  induction 1 as [|x l Hx Hl IH]; simpl; [done|]. by rewrite Hx.
Qed.

Lemma decode_newEntries events :
  Forall timeInRange events -> entryEvent <$> (newEntry <$> events) = events.
Proof.
  induction 1 as [|evt events Hevt Hevents IH]; [done|].
  rewrite !fmap_cons, IH. f_equal. by apply decode_newEntry.
Qed.

Lemma Insert_nil s : Insert s [] = (s, None).
Proof. reflexivity. Qed.

(** X14.  An aggregate that [Save] has flushed can be saved again at no
    cost: the second [Save] inserts nothing, leaves store and aggregate
    as they are and succeeds. *)
Theorem Save_flushed s a :
  (repository.Save s a).2 = None ->
  repository.Save (repository.Save s a).1.1 (repository.Save s a).1.2 =
    ((repository.Save s a).1.1, (repository.Save s a).1.2, None).
Proof.
  unfold repository.Save. rewrite Insert_mongostore.
  destruct (Insert s (aggregate.AggregateChanges a)) as [s' [err|]];
    [done|].
  done.
Qed.


End repository_mongo_save.

Lemma Save_flushed_witness :
  repository.Save
    (repository.Save sample.emptyStore
       {| aggregate.AggregateName := "foo"; aggregate.AggregateID := 7%N;
          aggregate.AggregateVersion := 0;
          aggregate.AggregateChanges := [sample.foo 1%N 1];
          aggregate.Applied := [] |}).1.1
    (repository.Save sample.emptyStore
       {| aggregate.AggregateName := "foo"; aggregate.AggregateID := 7%N;
          aggregate.AggregateVersion := 0;
          aggregate.AggregateChanges := [sample.foo 1%N 1];
          aggregate.Applied := [] |}).1.2 =
  ((mongostore.Insert sample.emptyStore [sample.foo 1%N 1]).1,
   sample.fooAggregate, None).
Proof.
  apply (Save_flushed sample.emptyStore
    {| aggregate.AggregateName := "foo"; aggregate.AggregateID := 7%N;
       aggregate.AggregateVersion := 0;
       aggregate.AggregateChanges := [sample.foo 1%N 1];
       aggregate.Applied := [] |}).
  reflexivity.
Defined.


(** ** The subscription pipeline: [handleJobs] behind a schedule *)

Section subscription_pipeline.

Import project.

Variable Test : query.Query -> event.Event -> bool.

Implicit Types (jobs : list job) (sel : list picked) (c : continously).

(** The context [handleJobs] makes of a ticket. *)
Local Abbreviation contextOf :=
  (fun j : job => newContext (aggregateName j) (aggregateID j)).

Lemma handleJobs_spec jobs : forall sel,
  handleJobs jobs sel `prefix_of` contextOf <$> jobs /\
  (stopped ∉ sel -> handleJobs jobs sel = contextOf <$> jobs) /\
  (forall k, sel !! k = Some stopped ->
     2 * length (handleJobs jobs sel) <= k)%nat.
Proof.
  induction jobs as [|j jobs IH]; intros sel.
  - assert (Hnil : handleJobs [] sel = []) by (by destruct sel as [|[] ?]).
    rewrite Hnil. split_and!; [done..|]. simpl. lia.
  - destruct sel as [|[] sel].
    + cbn [handleJobs drop]. destruct (IH []) as (Hp & He & _). split_and!.
      * by apply prefix_cons.
      * intros _. rewrite fmap_cons. f_equal. apply He, not_elem_of_nil.
      * intros k Hk. by destruct k.
    + cbn [handleJobs]. split_and!; [apply prefix_nil| |simpl; lia].
      intros Hno. destruct Hno. by left.
    + destruct sel as [|[] sel]; cbn [handleJobs drop].
      * destruct (IH []) as (Hp & He & _). split_and!.
        -- by apply prefix_cons.
        -- intros _. rewrite fmap_cons. f_equal. apply He, not_elem_of_nil.
        -- intros [|[|k]] Hk; simplify_eq/=.
      * split_and!; [apply prefix_nil| |simpl; lia].
        intros Hno. destruct Hno. right. by left.
      * rewrite drop_0. destruct (IH sel) as (Hp & He & Hk). split_and!.
        -- by apply prefix_cons.
        -- intros Hno. rewrite fmap_cons. f_equal. apply He.
           intros Hin. apply Hno. right. by right.
        -- intros [|[|k]] Hsel; simplify_eq/=.
           specialize (Hk k Hsel). lia.
Qed.

(** X16.  [handleJobs] hands the tickets of the schedule on as contexts,
    one per ticket and in their order: what it sends is a prefix of the
    contexts of all tickets, it is all of them when no [select] takes
    the [<-sub.stop] case, and when the [k]-th [select] takes that case,
    no more than [k / 2] contexts have been sent. *)
Theorem handleJobs_sends jobs sel :
  handleJobs jobs sel `prefix_of` contextOf <$> jobs /\
  (stopped ∉ sel -> handleJobs jobs sel = contextOf <$> jobs) /\
  (forall k, sel !! k = Some stopped ->
     2 * length (handleJobs jobs sel) <= k)%nat.
Proof. apply handleJobs_spec. Qed.

Lemma handleEvents_filter c received :
  handleEvents Test c received =
  (fun evt => {| aggregateName := event.AggregateName evt;
                 aggregateID := event.AggregateID evt |}) <$>
    List.filter (fun evt => event.hasAggregate evt && Test (filter c) evt)
      received.
Proof.
  induction received as [|evt received IH]; simpl; [done|].
  rewrite shouldDiscard_eq.
  destruct (event.hasAggregate evt && Test (filter c) evt); simpl;
    by rewrite IH.
Qed.

(** X17.  A subscription to the continuous schedule: the contexts sent
    on [sub.out] are always contexts of aggregates, with a name and a
    non-nil id; and when the subscription is not stopped, there is one
    for every received event that carries an aggregate and passes the
    filter, in the order the events were received. *)
Theorem handleJobs_of_handleEvents c received sel :
  Forall (fun p => pcontext_aggregateName p <> EmptyString /\
                   pcontext_aggregateID p <> uuid.Nil)
    (handleJobs (handleEvents Test c received) sel) /\
  (stopped ∉ sel ->
     handleJobs (handleEvents Test c received) sel =
     (fun evt => newContext (event.AggregateName evt) (event.AggregateID evt))
       <$> List.filter
             (fun evt => event.hasAggregate evt && Test (filter c) evt)
             received).
Proof.
  destruct (handleJobs_spec (handleEvents Test c received) sel)
    as ([rest Hprefix] & Hall & _).
  rewrite handleEvents_filter in *. rewrite <- list_fmap_compose in *.
  split; [|done].
  assert (Hcontexts :
    Forall (fun p => pcontext_aggregateName p <> EmptyString /\
                     pcontext_aggregateID p <> uuid.Nil)
      ((contextOf ∘
          (fun evt => {| aggregateName := event.AggregateName evt;
                         aggregateID := event.AggregateID evt |})) <$>
         List.filter (fun evt => event.hasAggregate evt && Test (filter c) evt)
           received)).
  { apply Forall_fmap, Forall_forall.
    intros evt [_ Hkeep]%list_elem_of_In%filter_In.
    apply andb_true_iff in Hkeep as [Hagg _].
    unfold event.hasAggregate in Hagg.
    apply negb_true_iff, orb_false_iff in Hagg
      as [Hn%bool_decide_eq_false Hi%bool_decide_eq_false].
    done. }
  rewrite Hprefix in Hcontexts. by apply Forall_app in Hcontexts as [? _].
Qed.

End subscription_pipeline.

(** ** Projection jobs: the cache over its life, and [Aggregates] *)

Section projection_cache_life.

Import projection.

Context {S : Type} `{!Store S}.

Variable hashQuery : query.Query -> N.

Implicit Types (c : queryCache S) (q : query.Query) (sel : list selected)
  (found : gset aggregate.Ref).

Lemma run_keeps c q :
  store (run hashQuery c q).1 = store c /\
  cache (run hashQuery c q).1 = cache c /\
  locks c ⊆ locks (run hashQuery c q).1.
Proof.
  unfold run. destruct (cached c (hashQuery q)) as [events|] eqn:Hc; [done|].
  replace (cached (acquireQueryLock c (hashQuery q)) (hashQuery q))
    with (@None (list event.Event)) by done.
  simpl. destruct (Query (store c) q); simpl; split_and!; try done;
    apply union_subseteq_r.
Qed.

Lemma run_build c q c' h str :
  run hashQuery c q = (c', inr (build h str)) ->
  h = hashQuery q /\ cached c h = None.
Proof.
  unfold run. destruct (cached c (hashQuery q)) as [events|] eqn:Hc; [done|].
  replace (cached (acquireQueryLock c (hashQuery q)) (hashQuery q))
    with (@None (list event.Event)) by done.
  simpl. destruct (Query (store c) q); [done|]. by intros [= _ <- _].
Qed.

(** X18.  Whatever a run of the cache does, it never changes the store
    it reads from, never removes or overwrites a cached result, never
    forgets a lock it has created, and never touches the entry of
    another fingerprint than the one of its query. *)
Theorem runToEnd_only_adds c sel q :
  store (runToEnd hashQuery c sel q).1 = store c /\
  cache c ⊆ cache (runToEnd hashQuery c sel q).1 /\
  locks c ⊆ locks (runToEnd hashQuery c sel q).1 /\
  (forall h, h <> hashQuery q ->
     cached (runToEnd hashQuery c sel q).1 h = cached c h).
Proof.
  unfold runToEnd. pose proof (run_keeps c q) as (Hstore & Hcache & Hlocks).
  pose proof (run_build c q) as Hbuild.
  destruct (run hashQuery c q) as [c' [err|[events|h str]]]; simpl in *.
  - unfold cached. by rewrite Hcache.
  - unfold cached. by rewrite Hcache.
  - destruct (Hbuild c' h str eq_refl) as [-> Hmiss].
    unfold intercept.
    destruct (interceptLoop (stream_events str) sel []) as [out []];
      simpl; unfold cached in *; simpl; rewrite ?Hcache; split_and!;
      try done.
    + by apply insert_subseteq.
    + intros h Hh. by rewrite lookup_insert_ne.
Qed.

Lemma aggregatesLoop_spec events : forall sel found,
  NoDup (aggregatesLoop events sel found) /\
  (forall ref, ref ∈ aggregatesLoop events sel found ->
     ref ∈ refOf <$> events /\ ref ∉ found) /\
  (ctxDone ∉ sel ->
     forall ref, ref ∈ refOf <$> events -> ref ∉ found ->
       ref ∈ aggregatesLoop events sel found).
Proof.
  induction events as [|evt events IH]; intros sel found.
  - simpl. split_and!; [constructor|by intros ? ?%elem_of_nil|].
    by intros _ ? ?%elem_of_nil.
  - cbn [aggregatesLoop]. rewrite fmap_cons.
    destruct (decide (refOf evt ∈ found)) as [Hin|Hnew].
    + destruct (IH sel found) as (Hnodup & Hsound & Hcomplete).
      split_and!; [done| |].
      * intros ref Href. destruct (Hsound ref Href). split; [by right|done].
      * intros Hno ref [->|Href]%elem_of_cons Hfresh; [done|].
        by apply Hcomplete.
    + assert (Hsent : forall sel',
        NoDup (refOf evt :: aggregatesLoop events sel' ({[refOf evt]} ∪ found))
        /\ (forall ref,
              ref ∈ refOf evt ::
                    aggregatesLoop events sel' ({[refOf evt]} ∪ found) ->
              ref ∈ refOf evt :: (refOf <$> events) /\ ref ∉ found)
        /\ (ctxDone ∉ sel' ->
            forall ref, ref ∈ refOf evt :: (refOf <$> events) ->
              ref ∉ found ->
              ref ∈ refOf evt ::
                    aggregatesLoop events sel' ({[refOf evt]} ∪ found))).
      { intros sel'.
        destruct (IH sel' ({[refOf evt]} ∪ found))
          as (Hnodup & Hsound & Hcomplete).
        split_and!.
        - apply NoDup_cons. split; [|done].
          intros Href. destruct (Hsound _ Href) as [_ Hfresh].
          apply Hfresh, elem_of_union_l, elem_of_singleton. done.
        - intros ref [->|Href]%elem_of_cons; [split; [by left|done]|].
          destruct (Hsound ref Href) as [Hevents Hfresh].
          split; [by right|]. intros Hfound. apply Hfresh.
          by apply elem_of_union_r.
        - intros Hno ref Href Hfresh.
          destruct (decide (ref = refOf evt)) as [->|Hne]; [by left|].
          right. apply Hcomplete; [done| |].
          + apply elem_of_cons in Href as [?|?]; done.
          + intros [Heq%elem_of_singleton|?]%elem_of_union; done. }
      destruct sel as [|[] sel].
      * apply Hsent.
      * split_and!; [constructor|by intros ? ?%elem_of_nil|].
        intros Hno. destruct Hno. by left.
      * cbn [drop]. rewrite drop_0.
        destruct (Hsent sel) as (Hnodup & Hsound & Hcomplete).
        split_and!; [done..|].
        intros Hno. apply Hcomplete. intros Hin. apply Hno. by right.
Qed.

(** X19.  The goroutine of [Aggregates] sends every reference at most
    once, and only references of events it has received; when it takes
    the [ctx.Done()] case in none of its [select]s, it sends the
    reference of every event, of the events without an aggregate as
    well (the reference with the empty name and the nil id). *)
Theorem aggregatesLoop_deduplicates events sel :
  NoDup (aggregatesLoop events sel ∅) /\
  (forall ref, ref ∈ aggregatesLoop events sel ∅ -> ref ∈ refOf <$> events) /\
  (ctxDone ∉ sel ->
     forall ref, ref ∈ refOf <$> events -> ref ∈ aggregatesLoop events sel ∅).
Proof.
  destruct (aggregatesLoop_spec events sel ∅) as (Hnodup & Hsound & Hcomplete).
  split_and!; [done| |].
  - intros ref Href. by destruct (Hsound ref Href).
  - intros Hno ref Href. apply Hcomplete; [done..|]. apply not_elem_of_empty.
Qed.

End projection_cache_life.

(** ** Event store: the state records *)

Section mongo_state_records.

Import mongostore contract invariant.

Implicit Types (s : mongostore.Store) (st : state) (col : list state).

Lemma ReplaceOne_keys_elem col name id st k :
  k ∈ stateKey <$> ReplaceOne col name id st ->
  k = stateKey st \/ k ∈ stateKey <$> col.
Proof.
  induction col as [|doc col IH]; simpl.
  - intros ->%list_elem_of_singleton. by left.
  - destruct (stateFilter name id doc); rewrite !fmap_cons, !elem_of_cons.
    + intros [->|Hk]; [by left|right; by right].
    + intros [->|Hk]; [right; by left|].
      destruct (IH Hk); [by left|right; by right].
Qed.

Lemma ReplaceOne_keys col name id st :
  stateKey st = (name, id) ->
  NoDup (stateKey <$> col) ->
  NoDup (stateKey <$> ReplaceOne col name id st).
Proof.
  intros Hst. induction col as [|doc col IH]; simpl.
  - intros _. apply NoDup_singleton.
  - destruct (stateFilter name id doc) eqn:Hdoc; rewrite !fmap_cons.
    + apply andb_true_iff in Hdoc
        as [Hn%bool_decide_eq_true Hi%bool_decide_eq_true].
      replace (stateKey st) with (stateKey doc); [done|].
      rewrite Hst. unfold stateKey. by rewrite Hn, Hi.
    + intros [Hdoc' Hcol]%NoDup_cons. apply NoDup_cons. split; [|by apply IH].
      intros [Hk|Hk]%ReplaceOne_keys_elem; [|done].
      rewrite Hst in Hk. unfold stateKey in Hk. injection Hk as Hn Hi.
      unfold stateFilter in Hdoc.
      by rewrite !bool_decide_eq_true_2 in Hdoc.
Qed.

Lemma updateState_uniqueStates s st events :
  uniqueStates s -> uniqueStates (updateState s st events).
Proof.
  unfold uniqueStates, updateState. intros Hs.
  destruct (last events); [|done].
  destruct (_ || _); [done|]. simpl. by apply ReplaceOne_keys.
Qed.

(** X20.  [Insert] keeps the states collection at one record per
    aggregate at most: the record of the aggregate is replaced when
    there is one and added when there is none, although the index of the
    collection is not unique. *)
Theorem Insert_keeps_one_state s events :
  uniqueStates s -> uniqueStates (Insert s events).1.
Proof.
  intros Hs.
  destruct (Insert_cases s events)
    as [(st & err & Hv & ->)|[(st & evt & err & Hv & Hall & ->)
                            |(st & s' & Hv & Hall & ->)]]; simpl; try done.
  apply updateState_uniqueStates. unfold uniqueStates.
  by apply insertAll_inr in Hall as [_ ->].
Qed.

End mongo_state_records.

Lemma Insert_keeps_one_state_witness :
  invariant.uniqueStates
    (mongostore.Insert sample.fooStore [sample.foo 4%N 4]).1.
Proof.
  apply (Insert_keeps_one_state sample.fooStore [sample.foo 4%N 4]).
  apply (bool_decide_unpack _). by vm_compute.
Defined.

(** ** Event store: when [Insert] succeeds, and what [Query] then returns *)

Section mongo_insert_succeeds.

Import mongostore contract invariant.

Implicit Types (s : mongostore.Store) (events : list event.Event)
  (e : entry) (col : list entry).

(** Writes that keep the indexes are all accepted. *)
Lemma insertAll_accepts events : forall s,
  NoDup (entry_ID <$> (entries s ++ (newEntry <$> events))) ->
  NoDup (aggregateKey <$>
           List.filter inAggregateIndex (entries s ++ (newEntry <$> events))) ->
  insertAll s events =
    inr {| entries := entries s ++ (newEntry <$> events);
           states := states s |}.
Proof.
  induction events as [|evt events IH]; intros s Hids Hkeys.
  - simpl. rewrite app_nil_r. by destruct s.
  - rewrite fmap_cons in Hids, Hkeys.
    cbn [insertAll]. unfold insert, InsertOne.
    destruct (existsb (sameID (newEntry evt)) (entries s)) eqn:HsameID.
    { exfalso. apply existsb_exists in HsameID as (x & Hx & Hsame).
      apply bool_decide_eq_true in Hsame.
      rewrite fmap_app, fmap_cons in Hids.
      apply NoDup_app in Hids as (_ & Hfresh & _).
      apply (Hfresh (entry_ID x)).
      - by apply list_elem_of_fmap_2, list_elem_of_In.
      - rewrite Hsame. by left. }
    destruct (inAggregateIndex (newEntry evt)) eqn:Hidx; simpl.
    + destruct (existsb (sameAggregateVersion (newEntry evt)) (entries s))
        eqn:HsameKey.
      { exfalso. apply existsb_exists in HsameKey as (x & Hx & Hsame).
        unfold sameAggregateVersion in Hsame.
        apply andb_true_iff in Hsame as [Hsame Hv%bool_decide_eq_true].
        apply andb_true_iff in Hsame as [Hsame Hi%bool_decide_eq_true].
        apply andb_true_iff in Hsame as [Hx' Hn%bool_decide_eq_true].
        rewrite List.filter_app in Hkeys. simpl in Hkeys.
        rewrite Hidx, fmap_app, fmap_cons in Hkeys.
        apply NoDup_app in Hkeys as (_ & Hfresh & _).
        apply (Hfresh (aggregateKey x)).
        - apply list_elem_of_fmap_2, list_elem_of_In, filter_In. by split.
        - replace (aggregateKey x) with (aggregateKey (newEntry evt));
            [by left|].
          unfold aggregateKey. by rewrite Hn, Hi, Hv. }
      rewrite IH; cbn [entries states]; rewrite <- ?app_assoc; done.
    + rewrite IH; cbn [entries states]; rewrite <- ?app_assoc; done.
Qed.


Lemma matches_makeFilter_empty e :
  matches (makeFilter (query.New [])) e = true.
Proof. by rewrite makeFilter_selects. Qed.


End mongo_insert_succeeds.



(** ** Projection jobs: what the cache returns is what the store returns *)

Section projection_cache_faithful.

Import projection invariant.

Context {S : Type} `{!Store S}.

Variable hashQuery : query.Query -> N.

Implicit Types (c : queryCache S) (q : query.Query) (sel : list selected).

Lemma newQueryCache_faithful (s : S) :
  cacheFaithful hashQuery (newQueryCache s).
Proof. intros q events. unfold cached. simpl. by rewrite lookup_empty. Qed.

Lemma runToEnd_faithful c sel q :
  (forall q', hashQuery q' = hashQuery q ->
     Query (store c) q' = Query (store c) q) ->
  cacheFaithful hashQuery c ->
  cacheFaithful hashQuery (runToEnd hashQuery c sel q).1 /\
  (forall str out errs,
     Query (store c) q = inr str ->
     (runToEnd hashQuery c sel q).2 = inr (out, errs) ->
     out `prefix_of` stream_events str /\
     (ctxDone ∉ sel -> out = stream_events str)) /\
  (forall str, Query (store c) q = inr str ->
     exists out errs, (runToEnd hashQuery c sel q).2 = inr (out, errs)).
Proof.
  intros Hsame Hc. unfold runToEnd.
  destruct (cached c (hashQuery q)) as [events|] eqn:Hcached.
  - rewrite (run_hit hashQuery c q events Hcached). simpl.
    destruct (Hc q events Hcached) as (str0 & Hstr0 & Hevents).
    destruct (eventStream_prefix events sel) as [Hp He].
    split_and!; [done| |].
    + intros str out errs Hstr [= <- _]. rewrite Hstr0 in Hstr.
      injection Hstr as <-. rewrite Hevents. done.
    + intros str _. by eexists _, _.
  - rewrite (run_miss hashQuery c q Hcached).
    assert (Hc1 : cacheFaithful hashQuery
                    (acquireQueryLock c (hashQuery q))) by done.
    destruct (Query (store c) q) as [err|str] eqn:Hquery; simpl.
    { split_and!; [done|by intros ? ? ? [=]|by intros ? [=]]. }
    destruct (interceptLoop_ending (stream_events str) sel [])
      as (Hended & Hprefix & Hcanceled).
    unfold intercept.
    destruct (interceptLoop (stream_events str) sel []) as [out e] eqn:Hloop.
    simpl in *.
    destruct e; simpl.
    + rewrite (Hended eq_refl). split_and!; [| |by eexists _, _].
      * intros q' events'. unfold cached. simpl.
        destruct (decide (hashQuery q' = hashQuery q)) as [Heq|Hne].
        -- rewrite Heq, lookup_insert_eq. intros [= <-].
           exists str. split; [|done]. by apply Hsame.
        -- rewrite lookup_insert_ne by done. apply Hc.
      * by intros str' out' errs' [= <-] [= <- _].
    + split_and!; [done| |by eexists _, _].
      intros str' out' errs' [= <-] [= <- _]. split; [done|].
      intros Hno. destruct Hno. by apply Hcanceled.
Qed.


End projection_cache_faithful.


(** ** The periodic schedule over the MongoDB store *)

Section periodic_schedule.

Import mongostore invariant project.

Variable Test : query.Query -> event.Event -> bool.

Implicit Types (p : periodically (S := mongostore.Store)) (e : entry).

Lemma matches_tickQuery p e :
  matches (makeFilter (tickQuery p)) e =
  memberOrAny (entry_AggregateName e) (periodically_names p) &&
  bool_decide (entry_AggregateVersion e = 0).
Proof.
  rewrite makeFilter_selects by reflexivity.
  unfold selects. simpl. rewrite !andb_true_r. f_equal.
  apply bool_decide_ext. by rewrite list_elem_of_singleton.
Qed.

Lemma hasAggregate_entryEvent e :
  event.hasAggregate (entryEvent e) = inAggregateIndex e.
Proof.
  unfold event.hasAggregate, inAggregateIndex. simpl.
  by destruct (bool_decide _), (bool_decide _).
Qed.

Lemma flat_map_tickJobs p events :
  flat_map (tickJobs Test p) events =
  (fun evt => {| aggregateName := event.AggregateName evt;
                 aggregateID := event.AggregateID evt |}) <$>
    List.filter
      (fun evt => event.hasAggregate evt && Test (periodically_filter p) evt)
      events.
Proof.
  induction events as [|evt events IH]; simpl; [done|].
  unfold tickJobs at 1. rewrite shouldDiscard_eq.
  destruct (event.hasAggregate evt && Test (periodically_filter p) evt);
    simpl; by rewrite IH.
Qed.


End periodic_schedule.
